(** * torch::optim::detail::OptimizerBase

    A shallow embedding of [torch/csrc/api/include/torch/optim/optimizer.h]
    and [torch/csrc/api/src/optim/optimizer.cpp], and the properties of the
    optimizer base layer proved over it.

    Conventions.
    - [size_t] values are [N]; every [size_t] addition of the source is
      written with its wrap-around modulo [2^64].
    - A [std::vector] is a [list]; [v.size()] is [vec_size v].
    - A [Tensor] is a handle (an index into the heap of tensor
      implementations); copying a handle shares the implementation, so two
      occurrences of a handle in two vectors alias the same tensor.
    - Member functions are computations in a state-and-exception monad: the
      state that a call leaves behind is kept also when the call throws.
    - [std::vector::max_size()] is a parameter [max_size] of the functions
      that grow a vector, which throw [std::length_error] beyond it as the
      library does; running out of memory below that bound is outside the
      model. *)

From Stdlib Require Import NArith Lia.
From stdpp Require Import base decidable option numbers list strings gmap.

Local Open Scope N_scope.

(** ** size_t and vectors *)

(** [size_t] is taken to have 64 bits. *)
Definition SIZE_MAX : N := 2 ^ 64 - 1.

Definition size_t_wrap (n : N) : N := n mod 2 ^ 64.

Definition vec_size {A} (v : list A) : N := N.of_nat (length v).

(** Element [i] of [v] when [i] is in range. *)
Definition vec_get {A} (v : list A) (i : N) : option A :=
  if i <? vec_size v then v !! N.to_nat i else None.

(** ** Exceptions, outcomes and the monad of member functions *)

Inductive exn : Type :=
  | c10_Error (msg : string)   (* thrown by a failed TORCH_CHECK *)
  | out_of_range               (* thrown by std::vector::at *)
  | length_error.              (* thrown by std::vector beyond max_size() *)

(** The error the specification calls [InvalidParameter]: the failed
    [TORCH_CHECK] of [add_param_group]. *)
Definition InvalidParameter : exn := c10_Error "can't optimize a non-leaf Tensor".

Inductive outcome (A : Type) : Type :=
  | Ok (a : A)
  | Throw (e : exn)
  | Undefined        (* undefined behaviour of the C++ abstract machine *)
  | OutOfFuel.       (* a loop was cut off by the model *)
Arguments Ok {A} a.
Arguments Throw {A} e.
Arguments Undefined {A}.
Arguments OutOfFuel {A}.

Definition M (St A : Type) : Type := St → outcome A * St.

Definition ret {St A} (a : A) : M St A := λ s, (Ok a, s).

Definition bind {St A B} (m : M St A) (k : A → M St B) : M St B :=
  λ s, match m s with
       | (Ok a, s') => k a s'
       | (Throw e, s') => (Throw e, s')
       | (Undefined, s') => (Undefined, s')
       | (OutOfFuel, s') => (OutOfFuel, s')
       end.

Definition throw {St A} (e : exn) : M St A := λ s, (Throw e, s).
Definition undefined {St A} : M St A := λ s, (Undefined, s).
Definition get {St} : M St St := λ s, (Ok s, s).
Definition gets {St A} (f : St → A) : M St A := λ s, (Ok (f s), s).
Definition modify {St} (f : St → St) : M St unit := λ s, (Ok tt, f s).

Declare Scope cpp_scope.
Delimit Scope cpp_scope with cpp.
Notation "'do' x <- m ; k" := (bind m (λ x, k))
  (at level 10, x name, m at level 100, k at level 200, only parsing) : cpp_scope.
Notation "m ;; k" := (bind m (λ _, k))
  (at level 100, k at level 200, only parsing, right associativity) : cpp_scope.
Local Open Scope cpp_scope.

(** [for (auto& x : xs) body(x)] *)
Fixpoint for_each {St A} (xs : list A) (body : A → M St unit) : M St unit :=
  match xs with
  | [] => ret tt
  | x :: xs' => body x ;; for_each xs' body
  end.

(** [TORCH_CHECK(cond, msg)] *)
Definition TORCH_CHECK {St} (cond : bool) (msg : string) : M St unit :=
  if cond then ret tt else throw (c10_Error msg).

Definition result {St A} (r : outcome A * St) : outcome A := r.1.
Definition final {St A} (r : outcome A * St) : St := r.2.

(** ** The tensor runtime *)

(** [at::Tensor] and the autograd runtime are used by these sources but
    are not part of them; what follows models the part of their interface
    that the optimizer base calls. *)

(** Modelled from the spec: the device and the element numeric type that
    [device()] and [dtype()] report. *)
Inductive Device : Type := CPU | CUDA (index : N).
Inductive ScalarType : Type := Byte | Int | Long | Half | Float | Double.

#[global] Instance Device_eq_dec : EqDecision Device.
Proof. solve_decision. Defined.
#[global] Instance ScalarType_eq_dec : EqDecision ScalarType.
Proof. solve_decision. Defined.

(** Element values are kept as integers: the optimizer base only ever
    writes the value zero. *)
Definition Scalar : Type := Z.

(** Modelled from the spec: the gradient of a parameter handle, with what
    its in-place [detach_()] and [zero_()] change. *)
Record Gradient : Type := {
  attached : bool;           (* still part of a recorded computation history *)
  grad_values : list Scalar
}.

(** Modelled from the spec: what a parameter handle refers to, following
    the Parameter Handle contract: [is_leaf()], [grad()] giving an optional
    gradient, [device()], [dtype()], the shape and the elements. *)
Record TensorImpl : Type := {
  is_leaf_ : bool;
  grad_ : option Gradient;   (* [None]: the gradient is an undefined tensor *)
  device_ : Device;
  dtype_ : ScalarType;
  sizes_ : list N;
  values_ : list Scalar
}.

#[global] Instance TensorImpl_inhabited : Inhabited TensorImpl :=
  populate {| is_leaf_ := true; grad_ := None; device_ := CPU;
              dtype_ := Float; sizes_ := []; values_ := [] |}.

(** A tensor handle.  Handles are reference counted in C++ and never
    dangle; on a heap where every handle in use is allocated the default of
    the total lookup [!!!] is never observed. *)
Abbreviation Tensor := nat (only parsing).

(** Calls into the runtime, recorded in the order they are made. *)
Inductive Call : Type :=
  | call_detach_ (p : Tensor)      (* p.grad().detach_() *)
  | call_zero_ (p : Tensor)        (* p.grad().zero_() *)
  | call_zeros_like (p : Tensor)   (* torch::zeros_like(p) *)
  | call_to (b : Tensor) (d : Device) (t : ScalarType).  (* b.to(d, t) *)

#[global] Instance Call_eq_dec : EqDecision Call.
Proof. solve_decision. Defined.

Record World : Type := {
  heap : list TensorImpl;
  calls : list Call
}.

Definition impl (w : World) (p : Tensor) : TensorImpl := heap w !!! p.

Definition is_leaf (w : World) (p : Tensor) : bool := is_leaf_ (impl w p).
Definition grad (w : World) (p : Tensor) : option Gradient := grad_ (impl w p).
Definition device (w : World) (p : Tensor) : Device := device_ (impl w p).
Definition dtype (w : World) (p : Tensor) : ScalarType := dtype_ (impl w p).
Definition scalar_type (w : World) (p : Tensor) : ScalarType := dtype w p.

(** [g.defined()] *)
Definition defined (g : option Gradient) : bool :=
  match g with Some _ => true | None => false end.

Definition on_grad (f : Gradient → Gradient) (t : TensorImpl) : TensorImpl :=
  {| is_leaf_ := is_leaf_ t; grad_ := f <$> grad_ t; device_ := device_ t;
     dtype_ := dtype_ t; sizes_ := sizes_ t; values_ := values_ t |}.

Definition detached (g : Gradient) : Gradient :=
  {| attached := false; grad_values := grad_values g |}.

Definition zeroed (g : Gradient) : Gradient :=
  {| attached := attached g; grad_values := (λ _, 0%Z) <$> grad_values g |}.

Definition log_call (c : Call) (w : World) : World :=
  {| heap := heap w; calls := calls w ++ [c] |}.

Definition update_impl (f : TensorImpl → TensorImpl) (p : Tensor) (w : World) : World :=
  {| heap := alter f p (heap w); calls := calls w |}.

(** [p.grad().detach_()] *)
Definition detach_ (p : Tensor) : M World unit :=
  modify (λ w, log_call (call_detach_ p) (update_impl (on_grad detached) p w)).

(** [p.grad().zero_()] *)
Definition zero_ (p : Tensor) : M World unit :=
  modify (λ w, log_call (call_zero_ p) (update_impl (on_grad zeroed) p w)).

Definition numel (sizes : list N) : N := foldr N.mul 1 sizes.

(** Modelled from the spec: the tensor [torch::zeros_like(t)] makes, a
    leaf without gradient, of zeros, with the shape, device and element
    type of [t]. *)
Definition zeros_like_impl (t : TensorImpl) : TensorImpl :=
  {| is_leaf_ := true; grad_ := None; device_ := device_ t; dtype_ := dtype_ t;
     sizes_ := sizes_ t; values_ := replicate (N.to_nat (numel (sizes_ t))) 0%Z |}.

(** Allocation of a fresh tensor: the new handle is the next free index. *)
Definition alloc (t : TensorImpl) (w : World) : Tensor * World :=
  (length (heap w), {| heap := heap w ++ [t]; calls := calls w |}).

(** [torch::zeros_like(p)] *)
Definition zeros_like (p : Tensor) (w : World) : Tensor * World :=
  alloc (zeros_like_impl (impl w p)) (log_call (call_zeros_like p) w).

Section Cast.
(** The element conversion of the runtime's cast primitive. *)
Variable convert : ScalarType → ScalarType → Scalar → Scalar.

(** Modelled from the spec: the copy [b.to(d, t)] makes, on device [d]
    with element type [t] and the shape of [b]. *)
Definition to_impl (d : Device) (t : ScalarType) (b : TensorImpl) : TensorImpl :=
  {| is_leaf_ := true; grad_ := None; device_ := d; dtype_ := t;
     sizes_ := sizes_ b; values_ := convert (dtype_ b) t <$> values_ b |}.

(** [b.to(d, t)], called when [b] is not already on [d] with type [t]:
    a new tensor holding the converted copy. *)
Definition to (b : Tensor) (d : Device) (t : ScalarType) (w : World) : Tensor * World :=
  alloc (to_impl d t (impl w b)) (log_call (call_to b d t) w).
End Cast.

(** ** The optimizer base *)

Section OptimizerBase.
(** The template parameters of [OptimizerBase]. *)
Context {OptimizerParamState OptimizerOptions : Type}.
(** A default-initialised [OptimizerOptions]. *)
Context `{!Inhabited OptimizerOptions}.

(** Modelled from the spec: the parameter group type is a template
    parameter whose class is not part of these sources; a group is a
    sequence of parameter handles with an optional Options override.
    [set_options] stores its argument by value. *)
Record OptimizerParamGroup : Type := {
  params : list Tensor;
  options : option OptimizerOptions
}.

(** [OptimizerParamGroup(params)] *)
Definition OptimizerParamGroup_of (ps : list Tensor) : OptimizerParamGroup :=
  {| params := ps; options := None |}.

Definition has_options (g : OptimizerParamGroup) : bool :=
  match options g with Some _ => true | None => false end.

Definition set_options (o : OptimizerOptions) (g : OptimizerParamGroup) : OptimizerParamGroup :=
  {| params := params g; options := Some o |}.

(** The data members of the class. *)
Record OptimizerBase : Type := {
  parameters_ : list Tensor;
  defaults_ : OptimizerOptions;
  param_groups_ : list OptimizerParamGroup;
  state_ : gmap Tensor OptimizerParamState
}.

Definition set_parameters_ (ps : list Tensor) (this : OptimizerBase) : OptimizerBase :=
  {| parameters_ := ps; defaults_ := defaults_ this;
     param_groups_ := param_groups_ this; state_ := state_ this |}.

Definition set_defaults_ (d : OptimizerOptions) (this : OptimizerBase) : OptimizerBase :=
  {| parameters_ := parameters_ this; defaults_ := d;
     param_groups_ := param_groups_ this; state_ := state_ this |}.

Definition set_param_groups_ (gs : list OptimizerParamGroup) (this : OptimizerBase) : OptimizerBase :=
  {| parameters_ := parameters_ this; defaults_ := defaults_ this;
     param_groups_ := gs; state_ := state_ this |}.

(** [void add_param_group(OptimizerParamGroup param_group)]: the group is
    passed by value, so [set_options] acts on the callee's copy.  The
    tensors are only read ([is_leaf]), in the world [w]. *)
Definition add_param_group (w : World) (param_group : OptimizerParamGroup)
  : M OptimizerBase unit :=
  for_each (params param_group) (λ param,
    TORCH_CHECK (is_leaf w param) "can't optimize a non-leaf Tensor") ;;
  do defaults <- gets defaults_ ;
  let param_group :=
    if negb (has_options param_group) then set_options defaults param_group
    else param_group in
  modify (λ this, set_param_groups_ (param_groups_ this ++ [param_group]) this).

(** [void add_parameters(const std::vector<Tensor>& parameters)] *)
Definition add_parameters (parameters : list Tensor) : M OptimizerBase unit :=
  modify (λ this, set_parameters_ (parameters_ this ++ parameters) this).

(** A constructor: the member initialisers give the object [init], the
    body runs on it; when the body throws there is no object. *)
Definition construct (init : OptimizerBase) (body : M OptimizerBase unit)
  : outcome OptimizerBase :=
  match body init with
  | (Ok _, this) => Ok this
  | (Throw e, _) => Throw e
  | (Undefined, _) => Undefined
  | (OutOfFuel, _) => OutOfFuel
  end.

(** [explicit OptimizerBase(std::vector<Tensor> parameters)
      : parameters_(std::move(parameters)) {}] *)
Definition OptimizerBase_parameters (parameters : list Tensor) : outcome OptimizerBase :=
  construct {| parameters_ := parameters; defaults_ := inhabitant;
               param_groups_ := []; state_ := ∅ |}
            (ret tt).

(** [explicit OptimizerBase(std::vector<OptimizerParamGroup> param_groups,
                            OptimizerOptions defaults)] *)
Definition OptimizerBase_param_groups (w : World)
    (param_groups : list OptimizerParamGroup) (defaults : OptimizerOptions)
  : outcome OptimizerBase :=
  construct {| parameters_ := []; defaults_ := defaults;
               param_groups_ := []; state_ := ∅ |}
            (for_each param_groups (λ param_group, add_param_group w param_group)).

(** [explicit OptimizerBase(std::vector<Tensor> params, OptimizerOptions defaults)
      : OptimizerBase({OptimizerParamGroup(params)}, defaults) {}] *)
Definition OptimizerBase_params_defaults (w : World)
    (ps : list Tensor) (defaults : OptimizerOptions) : outcome OptimizerBase :=
  OptimizerBase_param_groups w [OptimizerParamGroup_of ps] defaults.

(** The body shared by the two loops of [zero_grad]. *)
Definition zero_grad_body (parameter : Tensor) : M World unit :=
  do g <- gets (λ w, grad w parameter) ;
  if defined g then
    detach_ parameter ;;
    zero_ parameter
  else ret tt.

(** [void zero_grad()].  The second loop of the source ranges over
    [param_groups], which names no declaration; it is read as the data
    member [param_groups_]. *)
Definition zero_grad (this : OptimizerBase) : M World unit :=
  for_each (parameters_ this) (λ parameter, zero_grad_body parameter) ;;
  for_each (param_groups_ this) (λ group,
    for_each (params group) (λ p, zero_grad_body p)).

(** [parameters()], const and non-const: a reference to the member. *)
Definition parameters (this : OptimizerBase) : list Tensor := parameters_ this.

(** [size_t size() const noexcept] *)
Definition size (this : OptimizerBase) : N := vec_size (parameters_ this).

End OptimizerBase.

Arguments OptimizerParamGroup : clear implicits.
Arguments OptimizerBase : clear implicits.

(** ** Buffers *)

Section GenericBuffer.
(** The element type of the template, [buffers.max_size()], the
    value-initialised element [T{}] and the zero [T{0}]. *)
Context {T : Type} (max_size : N) (T_value_init : T) (T_zero : T).

(** [buffers.resize(n)]: throws, and leaves the vector as it is, when [n]
    exceeds [max_size()]. *)
Definition resize (n : N) : M (list T) unit :=
  if max_size <? n then throw length_error
  else
    modify (λ buffers,
      take (N.to_nat n) buffers
        ++ replicate (N.to_nat n - length buffers) T_value_init).

(** [std::fill(buffers.begin() + first, buffers.begin() + last, x)]:
    undefined unless [first <= last <= buffers.size()]. *)
Definition fill (first last : N) (x : T) : M (list T) unit :=
  λ buffers,
    if (first <=? last) && (last <=? vec_size buffers) then
      (Ok tt, take (N.to_nat first) buffers
                ++ replicate (N.to_nat (last - first)) x
                ++ drop (N.to_nat last) buffers)
    else (Undefined, buffers).

(** [buffers[index]]: undefined when [index] is out of range.  A
    reference into the vector is the position of the slot it designates;
    reading and writing through it read and write that slot of the vector
    in the current state. *)
Definition subscript (index : N) : M (list T) N :=
  λ buffers,
    if index <? vec_size buffers then (Ok index, buffers)
    else (Undefined, buffers).

(** [template <typename T> T& buffer_at(std::vector<T>& buffers, size_t index)] *)
Definition buffer_at (index : N) : M (list T) N :=
  do n <- gets vec_size ;
  (if n <=? index then
     let old_size := n in
     resize (size_t_wrap (index + 1)) ;;
     do end_ <- gets vec_size ;
     fill old_size end_ T_zero
   else ret tt) ;;
  subscript index.
End GenericBuffer.

Section TensorBuffer.
Variable convert : ScalarType → ScalarType → Scalar → Scalar.
(** [buffers.max_size()] *)
Variable max_size : N.

(** The state of the tensor overload: the vector passed by reference and
    the tensor runtime. *)
Definition BufferState : Type := list Tensor * World.

Definition run_world {A} (f : World → A * World) : M BufferState A :=
  λ s, let '(a, w) := f s.2 in (Ok a, (s.1, w)).

(** [buffers.reserve(n)]: throws when [n] exceeds [max_size()], and
    otherwise changes the capacity only. *)
Definition reserve (n : N) : M BufferState unit :=
  if max_size <? n then throw length_error else ret tt.

(** [buffers.push_back(t)]: throws when the vector already has
    [max_size()] elements. *)
Definition push_back (t : Tensor) : M BufferState unit :=
  λ s, if vec_size s.1 <? max_size then (Ok tt, (s.1 ++ [t], s.2))
       else (Throw length_error, s).

(** [v.at(i)] *)
Definition at_ {St A} (v : list A) (i : N) : M St A :=
  match vec_get v i with
  | Some x => ret x
  | None => throw out_of_range
  end.

(** [buffers.at(i)] *)
Definition buffers_at (i : N) : M BufferState Tensor :=
  do s <- get ; at_ s.1 i.

(** [buffers[i] = t]: undefined when [i] is out of range. *)
Definition buffers_assign (i : N) (t : Tensor) : M BufferState unit :=
  λ s, if i <? vec_size s.1 then (Ok tt, (<[N.to_nat i := t]> s.1, s.2))
       else (Undefined, s).

(** [buffers[i]] read: undefined when [i] is out of range. *)
Definition buffers_subscript (i : N) : M BufferState Tensor :=
  λ s, match vec_get s.1 i with
       | Some x => (Ok x, s)
       | None => (Undefined, s)
       end.

(** [for (auto i = buffers.size(); i <= index; ++i)
      buffers.push_back(torch::zeros_like(parameters_.at(i)));]
    with [i] the current value of the loop variable. *)
Fixpoint grow_loop (fuel : nat) (parameters_ : list Tensor) (i index : N)
  : M BufferState unit :=
  match fuel with
  | O => λ s, (OutOfFuel, s)
  | S fuel' =>
      if i <=? index then
        do parameter <- at_ parameters_ i ;
        do z <- run_world (zeros_like parameter) ;
        push_back z ;;
        grow_loop fuel' parameters_ (size_t_wrap (i + 1)) index
      else ret tt
  end.

(** [Tensor& buffer_at(std::vector<Tensor>& buffers, size_t index)].  The
    loop throws at the first [i] that is not an index of [parameters_],
    so one more turn than there are parameters is all it can take. *)
Definition buffer_at_Tensor (parameters_ : list Tensor) (index : N)
  : M BufferState Tensor :=
  do n <- gets (λ s : BufferState, vec_size s.1) ;
  (if n <=? index then
     reserve index ;;
     grow_loop (S (length parameters_)) parameters_ n index
   else ret tt) ;;
  do parameter <- at_ parameters_ index ;
  do buffer <- buffers_at index ;
  do w <- gets (λ s : BufferState, s.2) ;
  (if bool_decide (device w buffer ≠ device w parameter)
      || bool_decide (dtype w buffer ≠ dtype w parameter) then
     do t <- run_world (to convert buffer (device w parameter) (scalar_type w parameter)) ;
     buffers_assign index t
   else ret tt) ;;
  buffers_subscript index.
End TensorBuffer.

(** ** Vocabulary of the statements *)

(** A tensor after [grad().detach_()] and [grad().zero_()]. *)
Definition cleared (t : TensorImpl) : TensorImpl :=
  on_grad zeroed (on_grad detached t).

(** The runtime calls made between the worlds [w] and [w']. *)
Definition new_calls (w w' : World) : list Call :=
  drop (length (calls w)) (calls w').

(** How often the gradient of [p] is detached in a sequence of calls. *)
Definition detach_count (p : Tensor) (cs : list Call) : nat :=
  count_occ Call_eq_dec cs (call_detach_ p).

(** How often the gradient of [p] is zeroed in a sequence of calls. *)
Definition zero_count (p : Tensor) (cs : list Call) : nat :=
  count_occ Call_eq_dec cs (call_zero_ p).

(** The calls one turn of a [zero_grad] loop makes for [p] in [w]. *)
Definition body_calls (w : World) (p : Tensor) : list Call :=
  if defined (grad w p) then [call_detach_ p; call_zero_ p] else [].

(** Every handle of [v] refers to a tensor of [w]. *)
Definition allocated (w : World) (v : list Tensor) : Prop :=
  Forall (λ p, (p < length (heap w))%nat) v.

#[global] Instance allocated_dec w v : Decision (allocated w v).
Proof. unfold allocated. apply _. Defined.

(** The test of the tensor overload of [buffer_at]: the buffer is not on
    the device of the parameter, or not of its element type. *)
Definition mismatch (w : World) (buffer parameter : Tensor) : Prop :=
  device w buffer ≠ device w parameter ∨ dtype w buffer ≠ dtype w parameter.

#[global] Instance mismatch_dec w buffer parameter :
  Decision (mismatch w buffer parameter).
Proof. unfold mismatch. apply _. Defined.

(** The world after [zeros_like] was called for each of [ps], in turn. *)
Definition grown_world (w : World) (ps : list Tensor) : World :=
  {| heap := heap w ++ ((λ p, zeros_like_impl (impl w p)) <$> ps);
     calls := calls w ++ (call_zeros_like <$> ps) |}.

Definition is_call_to (c : Call) : bool :=
  match c with call_to _ _ _ => true | _ => false end.

(** The casts among a sequence of calls. *)
Definition casts (cs : list Call) : list Call := List.filter is_call_to cs.

(** The state [s'] continues [s] in a call for the slot [index]: the
    tensors and the calls of [s] are still there, in place, followed by
    new ones; the buffers are no fewer, and the slots that [s] has, other
    than [index], hold what they held. *)
Definition extends (index : N) (s s' : BufferState) : Prop :=
  heap s.2 `prefix_of` heap s'.2
  ∧ calls s.2 `prefix_of` calls s'.2
  ∧ (length s.1 ≤ length s'.1)%nat
  ∧ ∀ j : nat, j ≠ N.to_nat index → (j < length s.1)%nat → s'.1 !! j = s.1 !! j.

(** Every run of the computation [m] ends in a state that continues the
    one it started in. *)
Definition preserves {A} (index : N) (m : M BufferState A) : Prop :=
  ∀ s, extends index s (final (m s)).

Section OptimizerVocabulary.
Context {OptimizerParamState OptimizerOptions : Type}.
Implicit Types (this : OptimizerBase OptimizerParamState OptimizerOptions).
Implicit Types (g : OptimizerParamGroup OptimizerOptions).

(** The group that [add_param_group] appends for the argument [g]: its
    own copy of the argument, with the defaults filled in when the
    argument has no options. *)
Definition registered (defaults : OptimizerOptions) g
  : OptimizerParamGroup OptimizerOptions :=
  if negb (has_options g) then set_options defaults g else g.

(** The handles in the order in which the two loops of [zero_grad] reach
    them. *)
Definition zero_grad_order this : list Tensor :=
  parameters_ this ++ concat (params <$> param_groups_ this).

(** What may happen to an optimizer after a group was registered: a
    derived class assigns the protected member [defaults_], or a caller
    adds parameters or a further group. *)
Inductive later_op : Type :=
  | assign_defaults (d : OptimizerOptions)
  | call_add_parameters (ps : list Tensor)
  | call_add_param_group (w : World) (g : OptimizerParamGroup OptimizerOptions).

Definition apply_op (op : later_op) this
  : OptimizerBase OptimizerParamState OptimizerOptions :=
  match op with
  | assign_defaults d => set_defaults_ d this
  | call_add_parameters ps => final (add_parameters ps this)
  | call_add_param_group w g => final (add_param_group w g this)
  end.

Definition apply_ops (ops : list later_op) this
  : OptimizerBase OptimizerParamState OptimizerOptions :=
  foldl (λ this op, apply_op op this) this ops.
End OptimizerVocabulary.

(** ** Concrete tensors and optimizers *)

Definition ex_tensor (leaf : bool) (g : option Gradient) (d : Device)
    (t : ScalarType) (sizes : list N) : TensorImpl :=
  {| is_leaf_ := leaf; grad_ := g; device_ := d; dtype_ := t; sizes_ := sizes;
     values_ := replicate (N.to_nat (numel sizes)) 7%Z |}.

Definition ex_gradient (vs : list Scalar) : option Gradient :=
  Some {| attached := true; grad_values := vs |}.

(** Seven tensors: handles 0 to 5 are leaves of different shapes and
    placements, 1 and 4 have a gradient; handle 6 is not a leaf. *)
Definition ex_world : World :=
  {| heap := [ ex_tensor true None CPU Float [2];
               ex_tensor true (ex_gradient [3; -1; 4; 1]%Z) CPU Float [2; 2];
               ex_tensor true None (CUDA 0) Double [3];
               ex_tensor true None CPU Float [1];
               ex_tensor true (ex_gradient [5; 9]%Z) CPU Half [2; 1];
               ex_tensor true None (CUDA 1) Float [4];
               ex_tensor false None CPU Float [2] ];
     calls := [] |}.

(** The [max_size()] of a vector of 8-byte elements where [ptrdiff_t] has
    64 bits. *)
Definition ex_max_size : N := 2 ^ 60 - 1.

(** A cast that keeps the integer values. *)
Definition ex_convert (from to : ScalarType) (v : Scalar) : Scalar := v.

(** The six leaves as a flat parameter list. *)
Definition ex_parameters : list Tensor := [0; 1; 2; 3; 4; 5]%nat.

(** The buffers and the world after [buffer_at(buffers, 5)] on empty
    buffers. *)
Definition ex_grown : BufferState :=
  final (buffer_at_Tensor ex_convert ex_max_size ex_parameters 5 ([], ex_world)).

(** An optimizer over the dummy template arguments ([int64_t]) holding the
    flat list [0; 1] and no group. *)
Definition ex_optimizer : OptimizerBase Z Z :=
  {| parameters_ := [0; 1]%nat; defaults_ := 10%Z; param_groups_ := [];
     state_ := ∅ |}.

(** The handle 1 both in the flat list and in a group. *)
Definition ex_shared_optimizer : OptimizerBase Z Z :=
  {| parameters_ := [0; 1]%nat; defaults_ := 10%Z;
     param_groups_ := [ {| params := [1; 4]%nat; options := None |} ];
     state_ := ∅ |}.

(** The four handles 0, 1, 3, 4, once each: three in the flat list and
    one in a group. *)
Definition ex_grouped_optimizer : OptimizerBase Z Z :=
  {| parameters_ := [0; 1; 3]%nat; defaults_ := 10%Z;
     param_groups_ := [ {| params := [4]%nat; options := Some 10%Z |} ];
     state_ := ∅ |}.

(** Handles without a gradient only. *)
Definition ex_gradless_optimizer : OptimizerBase Z Z :=
  {| parameters_ := [0; 2]%nat; defaults_ := 10%Z;
     param_groups_ := [ {| params := [3; 5]%nat; options := None |} ];
     state_ := ∅ |}.

(** A group of leaves of which handle 4 has a gradient. *)
Definition ex_gradient_group : OptimizerParamGroup Z :=
  {| params := [4; 5]%nat; options := Some 3%Z |}.

Definition ex_leaf_group : OptimizerParamGroup Z :=
  {| params := [2; 3]%nat; options := None |}.

Definition ex_non_leaf_group : OptimizerParamGroup Z :=
  {| params := [2; 6; 3]%nat; options := None |}.

(** * Properties *)

(** ** The monad *)

Lemma bind_Ok {St A B} (m : M St A) (k : A → M St B) s a s' :
  m s = (Ok a, s') → bind m k s = k a s'.
Proof. intros E. unfold bind. by rewrite E. Qed.

(** A loop of checks succeeds when every check does, and otherwise throws
    at the first that fails; it never changes the state. *)
Lemma for_each_TORCH_CHECK {St A} (cond : A → bool) msg (xs : list A) (s : St) :
  for_each xs (λ x, TORCH_CHECK (cond x) msg) s
  = if forallb cond xs then (Ok tt, s) else (Throw (c10_Error msg), s).
Proof.
  induction xs as [|x xs IH]; simpl; [done|].
  unfold bind, TORCH_CHECK at 1. destruct (cond x); simpl; [apply IH|done].
Qed.

Lemma forallb_elem_of {A} (f : A → bool) (xs : list A) :
  forallb f xs = true ↔ ∀ x, x ∈ xs → f x = true.
Proof.
  rewrite forallb_forall. split; intros H x Hx; apply H; by apply list_elem_of_In.
Qed.

Lemma forallb_false_elem_of {A} (f : A → bool) (xs : list A) :
  forallb f xs = false ↔ ∃ x, x ∈ xs ∧ f x = false.
Proof.
  induction xs as [|x xs IH]; simpl.
  - split; [done|]. intros (x & Hx & _). by apply elem_of_nil in Hx.
  - rewrite andb_false_iff, IH. split.
    + intros [Hx|(y & Hy & Hf)]; [exists x|exists y]; split; try done; by constructor.
    + intros (y & Hy & Hf). apply elem_of_cons in Hy as [->|Hy]; [by left|].
      right. by exists y.
Qed.

(** ** Parameter groups *)

Section GroupProperties.
Context {OptimizerParamState OptimizerOptions : Type}.
Context `{!Inhabited OptimizerOptions}.
Abbreviation Group := (OptimizerParamGroup OptimizerOptions).
Abbreviation Optimizer := (OptimizerBase OptimizerParamState OptimizerOptions).
Implicit Types (w : World) (g : Group) (this : Optimizer).

Lemma add_param_group_run w g this :
  add_param_group w g this
  = if forallb (is_leaf w) (params g)
    then (Ok tt, set_param_groups_
                   (param_groups_ this ++ [registered (defaults_ this) g]) this)
    else (Throw InvalidParameter, this).
Proof.
  unfold add_param_group, bind at 1. rewrite for_each_TORCH_CHECK.
  destruct (forallb _ _); done.
Qed.

Lemma params_registered d g : params (registered d g) = params g.
Proof. unfold registered. by destruct (has_options g). Qed.

Lemma options_registered d g :
  options (registered d g) = Some (default d (options g)).
Proof. unfold registered, has_options. by destruct g as [ps [o|]]. Qed.

Lemma for_each_add_param_group w (gs : list Group) this :
  forallb (λ g, forallb (is_leaf w) (params g)) gs = true →
  for_each gs (λ g, add_param_group w g) this
  = (Ok tt, set_param_groups_
              (param_groups_ this ++ (registered (defaults_ this) <$> gs)) this).
Proof.
  revert this. induction gs as [|g gs IH]; intros this; simpl.
  - intros _. rewrite app_nil_r. by destruct this.
  - intros [Hg Hgs]%andb_true_iff.
    erewrite bind_Ok; [|by rewrite add_param_group_run, Hg].
    rewrite (IH _ Hgs). unfold set_param_groups_; simpl.
    by rewrite <- app_assoc.
Qed.

(** The constructor from groups registers them all, in order, when every
    handle of every group is a leaf. *)
Lemma OptimizerBase_param_groups_leaves w (gs : list Group) d :
  forallb (λ g, forallb (is_leaf w) (params g)) gs = true →
  OptimizerBase_param_groups (OptimizerParamState := OptimizerParamState) w gs d
  = Ok {| parameters_ := []; defaults_ := d;
          param_groups_ := registered d <$> gs; state_ := ∅ |}.
Proof.
  intros Hgs. unfold OptimizerBase_param_groups, construct.
  by rewrite (for_each_add_param_group _ _ _ Hgs).
Qed.

Lemma apply_op_param_groups (op : later_op) this :
  ∃ gs, param_groups_ (apply_op op this) = param_groups_ this ++ gs.
Proof.
  destruct op as [d|ps|w g]; simpl.
  - exists []. by rewrite app_nil_r.
  - exists []. by rewrite app_nil_r.
  - rewrite add_param_group_run. destruct (forallb _ _); simpl.
    + by eexists.
    + exists []. by rewrite app_nil_r.
Qed.

Lemma apply_ops_param_groups (ops : list later_op) this k g :
  param_groups_ this !! k = Some g →
  param_groups_ (apply_ops ops this) !! k = Some g.
Proof.
  revert this. induction ops as [|op ops IH]; intros this Hk; simpl; [done|].
  apply IH. destruct (apply_op_param_groups op this) as [gs ->].
  by apply lookup_app_l_Some.
Qed.

(** C3.  [add_param_group] is atomic with respect to a failed validation:
    when the group holds a non-leaf handle the call throws
    [InvalidParameter] and leaves the optimizer exactly as it was; when
    every handle is a leaf the call returns, the group list afterwards is
    the group list before followed by exactly one group, which has the
    parameters of the argument and its options or, when it has none, the
    defaults, and the flat list, the defaults and the state map are what
    they were. *)
Theorem add_param_group_atomic w g this :
  ((∃ p, p ∈ params g ∧ is_leaf w p = false) →
     add_param_group w g this = (Throw InvalidParameter, this))
  ∧ ((∀ p, p ∈ params g → is_leaf w p = true) →
     ∃ g', add_param_group w g this
           = (Ok tt, set_param_groups_ (param_groups_ this ++ [g']) this)
         ∧ params g' = params g
         ∧ options g' = Some (default (defaults_ this) (options g))
         ∧ result (add_param_group w g this) = Ok tt
         ∧ param_groups_ (final (add_param_group w g this))
           = param_groups_ this ++ [g']
         ∧ length (param_groups_ (final (add_param_group w g this)))
           = S (length (param_groups_ this))
         ∧ parameters_ (final (add_param_group w g this)) = parameters_ this
         ∧ defaults_ (final (add_param_group w g this)) = defaults_ this
         ∧ state_ (final (add_param_group w g this)) = state_ this).
Proof.
  rewrite add_param_group_run. split.
  - intros H%forallb_false_elem_of. by rewrite H.
  - intros H%forallb_elem_of. rewrite H.
    exists (registered (defaults_ this) g). split; [done|].
    split; [apply params_registered|]. split; [apply options_registered|].
    unfold result, final; simpl. split; [done|]. split; [done|].
    split; [|done]. rewrite length_app; simpl. lia.
Qed.

(** C4.  A group registered without options gets a copy of the defaults
  the optimizer has at the time of the call, a group registered with
  options keeps them, and whatever happens to the optimizer afterwards
  (its defaults assigned, parameters or groups added) the registered
  group stays as it is. *)
Theorem add_param_group_snapshots_defaults w g this :
(∀ p, p ∈ params g → is_leaf w p = true) →
∃ g', add_param_group w g this
      = (Ok tt, set_param_groups_ (param_groups_ this ++ [g']) this)
    ∧ params g' = params g
    ∧ (options g = None → options g' = Some (defaults_ this))
    ∧ (∀ o, options g = Some o → g' = g)
    ∧ ∀ ops : list later_op,
        param_groups_ (apply_ops ops (final (add_param_group w g this)))
          !! length (param_groups_ this) = Some g'.
Proof.
intros H%forallb_elem_of. rewrite add_param_group_run, H.
exists (registered (defaults_ this) g). split_and!; [done|apply params_registered|..].
- intros Ho. by rewrite options_registered, Ho.
- intros o Ho. unfold registered, has_options. by rewrite Ho.
- intros ops. apply apply_ops_param_groups. simpl.
  by rewrite list_lookup_middle.
Qed.

(** C9.  [size()] is the length of the flat parameter list and
  [parameters()] is that list; [add_param_group], whether it returns or
  throws, leaves the flat list, the state map and the defaults as they
  were, so [size()] and [parameters()] are not affected, and the group
  list is either unchanged or longer by the one registered group. *)
Theorem size_parameters_unaffected_by_add_param_group w g this :
size this = N.of_nat (length (parameters_ this))
∧ parameters this = parameters_ this
∧ let this' := final (add_param_group w g this) in
  parameters_ this' = parameters_ this
  ∧ state_ this' = state_ this
  ∧ defaults_ this' = defaults_ this
  ∧ size this' = size this
  ∧ parameters this' = parameters this
  ∧ (param_groups_ this' = param_groups_ this
     ∨ param_groups_ this'
       = param_groups_ this ++ [registered (defaults_ this) g]).
Proof.
split; [done|]. split; [done|]. rewrite add_param_group_run.
destruct (forallb _ _); simpl; unfold size, parameters; simpl; auto 10.
Qed.

(** C1 (as the code has it).  The constructor from a flat vector checks
  nothing: for every vector, leaves or not, it succeeds, the flat list
  is the given vector and no group is made.  The constructor from a
  vector and defaults wraps the vector in one group and registers it
  with [add_param_group]: it throws [InvalidParameter] when some handle
  is not a leaf and otherwise gives one group with the defaults. *)
Theorem constructors_and_leaf_check w (ps : list Tensor) (d : OptimizerOptions) :
OptimizerBase_parameters (OptimizerParamState := OptimizerParamState)
  (OptimizerOptions := OptimizerOptions) ps
= Ok {| parameters_ := ps; defaults_ := inhabitant;
        param_groups_ := []; state_ := ∅ |}
∧ OptimizerBase_params_defaults (OptimizerParamState := OptimizerParamState) w ps d
  = if forallb (is_leaf w) ps
    then Ok {| parameters_ := []; defaults_ := d;
               param_groups_ := [{| params := ps; options := Some d |}];
               state_ := ∅ |}
    else Throw InvalidParameter.
Proof.
split; [done|].
unfold OptimizerBase_params_defaults, OptimizerBase_param_groups, construct.
simpl. unfold bind. rewrite add_param_group_run. simpl.
by destruct (forallb _ _).
Qed.
End GroupProperties.

(** C3, at the concrete groups: the group with the non-leaf handle 6 is
    refused and the optimizer is unchanged, the group of leaves is added. *)
Lemma add_param_group_atomic_witness :
  add_param_group ex_world ex_non_leaf_group ex_optimizer
  = (Throw InvalidParameter, ex_optimizer)
  ∧ ∃ g', param_groups_ (final (add_param_group ex_world ex_leaf_group ex_optimizer))
          = param_groups_ ex_optimizer ++ [g']
        ∧ params g' = params ex_leaf_group
        ∧ parameters_ (final (add_param_group ex_world ex_leaf_group ex_optimizer))
          = parameters_ ex_optimizer.
Proof.
  split.
  - apply (proj1 (add_param_group_atomic ex_world ex_non_leaf_group ex_optimizer)).
    exists 6%nat. split; [|reflexivity]. apply list_elem_of_In. simpl. tauto.
  - destruct (proj2 (add_param_group_atomic ex_world ex_leaf_group ex_optimizer))
      as (g' & _ & Hparams & _ & _ & Hgroups & _ & Hflat & _).
    + intros p Hp%list_elem_of_In. simpl in Hp.
      destruct Hp as [<-|[<-|[]]]; reflexivity.
    + exists g'. exact (conj Hgroups (conj Hparams Hflat)).
Defined.

Lemma add_param_group_snapshots_defaults_witness :
  ∃ g', add_param_group ex_world ex_leaf_group ex_optimizer
        = (Ok tt, set_param_groups_ (param_groups_ ex_optimizer ++ [g']) ex_optimizer)
      ∧ params g' = params ex_leaf_group
      ∧ (options ex_leaf_group = None → options g' = Some (defaults_ ex_optimizer))
      ∧ (∀ o, options ex_leaf_group = Some o → g' = ex_leaf_group)
      ∧ ∀ ops : list later_op,
          param_groups_
            (apply_ops ops (final (add_param_group ex_world ex_leaf_group ex_optimizer)))
            !! length (param_groups_ ex_optimizer) = Some g'.
Proof.
  apply (add_param_group_snapshots_defaults ex_world ex_leaf_group ex_optimizer).
  intros p Hp%list_elem_of_In. simpl in Hp.
  destruct Hp as [<-|[<-|[]]]; reflexivity.
Defined.

(** C1, as stated, fails: handle 6 is not a leaf, and the constructor from
    the flat vector [0; 6] returns an optimizer holding that vector. *)
Lemma single_argument_constructor_accepts_non_leaf :
  is_leaf ex_world 6%nat = false
  ∧ OptimizerBase_parameters (OptimizerParamState := Z) (OptimizerOptions := Z)
      [0; 6]%nat
    = Ok {| parameters_ := [0; 6]%nat; defaults_ := inhabitant;
            param_groups_ := []; state_ := ∅ |}
  ∧ OptimizerBase_parameters (OptimizerParamState := Z) (OptimizerOptions := Z)
      [0; 6]%nat
    ≠ Throw InvalidParameter.
Proof. split; [reflexivity|]. split; [reflexivity|discriminate]. Qed.


(** ** zero_grad *)

Lemma for_each_app_bind {St A} (xs ys : list A) (body : A → M St unit) s :
  for_each (xs ++ ys) body s = bind (for_each xs body) (λ _, for_each ys body) s.
Proof.
  revert s. induction xs as [|x xs IH]; intros s; simpl; [done|].
  unfold bind in *. destruct (body x s) as [[[]| | |] s1]; auto.
Qed.

Lemma for_each_concat {St A} (xss : list (list A)) (body : A → M St unit) s :
  for_each xss (λ xs, for_each xs body) s = for_each (concat xss) body s.
Proof.
  revert s. induction xss as [|xs xss IH]; intros s; simpl; [done|].
  rewrite for_each_app_bind. unfold bind.
  destruct (for_each xs body s) as [[[]| | |] s1]; auto.
Qed.

Lemma cleared_idemp t : cleared (cleared t) = cleared t.
Proof.
  destruct t as [l [[a vs]|] d ty sz v]; unfold cleared, on_grad; simpl; [|done].
  do 2 f_equal. unfold zeroed, detached; simpl. f_equal.
  by rewrite <- list_fmap_compose.
Qed.

Lemma cleared_undefined t : grad_ t = None → cleared t = t.
Proof. destruct t as [l [g|] d ty sz v]; simpl; [done|]. by intros _. Qed.

Lemma defined_cleared t : defined (grad_ (cleared t)) = defined (grad_ t).
Proof. by destruct t as [l [g|] d ty sz v]. Qed.

Lemma alter_cleared_undefined (h : list TensorImpl) p :
  grad_ (h !!! p) = None → alter cleared p h = h.
Proof.
  intros Hg. apply list_eq. intros q. rewrite list_lookup_alter.
  case_decide as Hq; [subst q|done].
  rewrite list_lookup_total_alt in Hg.
  destruct (h !! p) as [t|] eqn:Ht; simpl in *; [|done].
  by rewrite cleared_undefined.
Qed.

Lemma defined_alter_cleared (h : list TensorImpl) p q :
  defined (grad_ (alter cleared p h !!! q)) = defined (grad_ (h !!! q)).
Proof.
  rewrite !list_lookup_total_alt, list_lookup_alter.
  case_decide as Hq; [subst q|done].
  destruct (h !! p); simpl; [apply defined_cleared|done].
Qed.

(** One turn of a loop of [zero_grad]. *)
Lemma zero_grad_body_run p w :
  zero_grad_body p w
  = (Ok tt, {| heap := alter cleared p (heap w);
               calls := calls w ++ body_calls w p |}).
Proof.
  unfold zero_grad_body, body_calls, bind, gets, grad, impl.
  destruct (defined _) eqn:Hd; simpl.
  - unfold zero_, modify, log_call, update_impl; simpl. do 2 f_equal.
    + by rewrite list_alter_alter_eq.
    + by rewrite <- app_assoc.
  - rewrite alter_cleared_undefined, app_nil_r; [by destruct w|].
    by destruct (grad_ _).
Qed.

Lemma body_calls_alter p q w cs :
  body_calls {| heap := alter cleared p (heap w); calls := cs |} q = body_calls w q.
Proof. unfold body_calls, grad, impl; simpl. by rewrite defined_alter_cleared. Qed.

(** A loop of [zero_grad] over the handles [ps]. *)
Lemma for_each_zero_grad_body ps w :
  for_each ps (λ p, zero_grad_body p) w
  = (Ok tt, {| heap := foldl (λ h p, alter cleared p h) (heap w) ps;
               calls := calls w ++ (ps ≫= body_calls w) |}).
Proof.
  revert w. induction ps as [|p ps IH]; intros w; simpl.
  - rewrite app_nil_r. by destruct w.
  - erewrite bind_Ok; [|apply zero_grad_body_run]. rewrite IH; simpl.
    do 2 f_equal. rewrite <- app_assoc. do 2 f_equal.
    apply list_bind_ext; [|done]. intros q. apply body_calls_alter.
Qed.

Section ZeroGradRun.
Context {OptimizerParamState OptimizerOptions : Type}.
Implicit Types (this : OptimizerBase OptimizerParamState OptimizerOptions).

(** [zero_grad] is one pass over [zero_grad_order]. *)
Lemma zero_grad_run this w :
  zero_grad this w
  = (Ok tt, {| heap := foldl (λ h p, alter cleared p h) (heap w) (zero_grad_order this);
               calls := calls w ++ (zero_grad_order this ≫= body_calls w) |}).
Proof.
  rewrite <- for_each_zero_grad_body. unfold zero_grad, zero_grad_order.
  rewrite for_each_app_bind. unfold bind.
  destruct (for_each (parameters_ this) _ w) as [[[]| | |] w1]; try done.
  rewrite <- for_each_concat. clear. revert w1.
  induction (param_groups_ this) as [|g gs IH]; intros w1; simpl; [done|].
  unfold bind. destruct (for_each (params g) _ w1) as [[[]| | |] w2]; try done.
Qed.
End ZeroGradRun.

Lemma lookup_foldl_alter {A} (f : A → A) (ps : list nat) (h : list A) q :
  (∀ x, f (f x) = f x) →
  foldl (λ h p, alter f p h) h ps !! q
  = if decide (q ∈ ps) then f <$> h !! q else h !! q.
Proof.
  intros Hf. revert h. induction ps as [|p ps IH]; intros h; simpl; [done|].
  rewrite IH, list_lookup_alter.
  destruct (decide (q ∈ ps)) as [Hin|Hin], (decide (p = q)) as [->|Hne].
  - rewrite decide_True by (by left). rewrite <- option_fmap_compose.
    apply option_fmap_ext. intros x; apply Hf.
  - by rewrite decide_True by (by right).
  - by rewrite decide_True by (by left).
  - rewrite decide_False; [done|]. intros [->|?]%elem_of_cons; done.
Qed.

Lemma zero_count_body_calls w p q :
  zero_count p (body_calls w q)
  = if decide (q = p) then (if defined (grad w q) then 1 else 0)%nat else 0%nat.
Proof.
  unfold zero_count, body_calls.
  destruct (defined _); [|by case_decide].
  rewrite count_occ_cons_neq by discriminate.
  case_decide as Hq.
  - subst q. by rewrite count_occ_cons_eq.
  - rewrite count_occ_cons_neq; [done|]. by intros [= ->].
Qed.

Lemma zero_count_app p cs cs' :
  zero_count p (cs ++ cs') = (zero_count p cs + zero_count p cs')%nat.
Proof. apply count_occ_app. Qed.

Lemma zero_count_bind w p ps :
  zero_count p (ps ≫= body_calls w)
  = if defined (grad w p) then count_occ Nat.eq_dec ps p else 0%nat.
Proof.
  induction ps as [|q ps IH]; [by destruct (defined _)|].
  rewrite bind_cons, zero_count_app, zero_count_body_calls, IH.
  case_decide as Hq.
  - subst q. rewrite count_occ_cons_eq by done. by destruct (defined _).
  - rewrite count_occ_cons_neq by done. by destruct (defined _).
Qed.

Lemma body_calls_elem_of w c ps :
  c ∈ ps ≫= body_calls w →
  ∃ q, defined (grad w q) = true ∧ (c = call_detach_ q ∨ c = call_zero_ q).
Proof.
  intros (q & Hc & _)%list_elem_of_bind. exists q. unfold body_calls in Hc.
  destruct (defined _); [|by apply elem_of_nil in Hc].
  split; [done|].
  apply elem_of_cons in Hc as [->|Hc]; [by left|].
  apply list_elem_of_singleton in Hc as ->. by right.
Qed.

Section ZeroGradTheorems.
Context {OptimizerParamState OptimizerOptions : Type}.
Implicit Types (this : OptimizerBase OptimizerParamState OptimizerOptions).

Lemma new_calls_zero_grad this w :
  new_calls w (final (zero_grad this w)) = zero_grad_order this ≫= body_calls w.
Proof.
  rewrite zero_grad_run. unfold new_calls, final; simpl.
  by rewrite drop_app_length.
Qed.

Lemma heap_zero_grad this w q :
  heap (final (zero_grad this w)) !! q
  = if decide (q ∈ zero_grad_order this) then cleared <$> heap w !! q
    else heap w !! q.
Proof.
  rewrite zero_grad_run. unfold final; simpl.
  apply lookup_foldl_alter, cleared_idemp.
Qed.

Lemma detach_count_bind w p ps :
  detach_count p (ps ≫= body_calls w)
  = if defined (grad w p) then count_occ Nat.eq_dec ps p else 0%nat.
Proof.
  induction ps as [|q ps IH]; [by destruct (defined _)|].
  rewrite bind_cons. unfold detach_count in *. rewrite count_occ_app, IH.
  unfold body_calls at 1. destruct (decide (q = p)) as [->|Hq].
  - rewrite (count_occ_cons_eq _ ps eq_refl). destruct (defined _); [|done].
    rewrite count_occ_cons_eq by done. by rewrite count_occ_cons_neq.
  - rewrite count_occ_cons_neq by done. destruct (defined (grad w q)); [|done].
    rewrite !count_occ_cons_neq; [done|discriminate|by intros [= ->]].
Qed.

(** C2 (as the code has it).  The two loops of [zero_grad] make one turn
    per occurrence of a handle in the flat list and in the lists of the
    groups, with nothing to recognise a handle met before: the calls of
    one [zero_grad] are, for each occurrence in turn of a handle with a
    defined gradient, one [detach_] followed by one [zero_] of its
    gradient, and none for the others.  So the gradient of such a handle
    is detached and is zeroed as many times as the handle occurs, and at
    most once each when no handle occurs twice. *)
Theorem zero_grad_zeroes_once_per_occurrence this w p :
  let w' := final (zero_grad this w) in
  zero_count p (new_calls w w')
  = (if defined (grad w p) then count_occ Nat.eq_dec (zero_grad_order this) p
     else 0%nat)
  ∧ (NoDup (zero_grad_order this) → (zero_count p (new_calls w w') ≤ 1)%nat)
  ∧ detach_count p (new_calls w w')
    = (if defined (grad w p) then count_occ Nat.eq_dec (zero_grad_order this) p
       else 0%nat)
  ∧ (NoDup (zero_grad_order this) → (detach_count p (new_calls w w') ≤ 1)%nat)
  ∧ new_calls w w'
    = zero_grad_order this ≫= λ q,
        if defined (grad w q) then [call_detach_ q; call_zero_ q] else [].
Proof.
  simpl. rewrite new_calls_zero_grad, zero_count_bind, detach_count_bind.
  assert (NoDup (zero_grad_order this) →
          ((if defined (grad w p)
            then count_occ Nat.eq_dec (zero_grad_order this) p else 0) ≤ 1)%nat)
    as Hle.
  { intros Hnd. destruct (defined _); [|lia].
    apply NoDup_ListNoDup in Hnd.
    apply (proj1 (NoDup_count_occ Nat.eq_dec _) Hnd). }
  split; [done|]. split; [exact Hle|]. split; [done|]. split; [exact Hle|].
  done.
Qed.

(** C5.  [zero_grad] always returns; a second call in succession leaves
    the tensors exactly as the first call left them; and a parameter whose
    gradient is undefined is not touched: its tensor is the same after the
    call, its gradient is still undefined, and no [detach_] or [zero_] is
    called for it. *)
Theorem zero_grad_idempotent this w :
  let w1 := final (zero_grad this w) in
  let w2 := final (zero_grad this w1) in
  result (zero_grad this w) = Ok tt
  ∧ result (zero_grad this w1) = Ok tt
  ∧ heap w2 = heap w1
  ∧ ∀ p, grad w p = None →
      heap w1 !! p = heap w !! p
      ∧ grad w1 p = None
      ∧ ∀ c, c ∈ new_calls w w1 → c ≠ call_detach_ p ∧ c ≠ call_zero_ p.
Proof.
  simpl. split; [by rewrite zero_grad_run|]. split; [by rewrite zero_grad_run|].
  split.
  - apply list_eq. intros q. rewrite !heap_zero_grad.
    case_decide; [|done]. rewrite <- option_fmap_compose.
    apply option_fmap_ext. intros t. apply cleared_idemp.
  - intros p Hp.
    assert (heap (final (zero_grad this w)) !! p = heap w !! p) as Hsame.
    { rewrite heap_zero_grad. case_decide; [|done].
      unfold grad, impl in Hp. rewrite list_lookup_total_alt in Hp.
      destruct (heap w !! p) as [t|]; [|done]. simpl in *.
      by rewrite cleared_undefined. }
    split; [done|]. split.
    + unfold grad, impl in *. by rewrite list_lookup_total_alt, Hsame,
        <- list_lookup_total_alt.
    + intros c Hc. rewrite new_calls_zero_grad in Hc.
      apply body_calls_elem_of in Hc as (q & Hq & Hc).
      split; intros ->; destruct Hc as [[= ->]|[= ->]]; by rewrite Hp in Hq.
Qed.
End ZeroGradTheorems.

(** C2, as stated, fails: handle 1 is in the flat list and in a group of
    [ex_shared_optimizer], and one call of [zero_grad] zeroes its gradient
    twice. *)
Lemma zero_grad_visits_shared_handle_twice :
  (1%nat ∈ parameters_ ex_shared_optimizer)
  ∧ (∃ g, g ∈ param_groups_ ex_shared_optimizer ∧ 1%nat ∈ params g)
  ∧ zero_count 1%nat
      (new_calls ex_world (final (zero_grad ex_shared_optimizer ex_world)))
    = 2%nat
  ∧ detach_count 1%nat
      (new_calls ex_world (final (zero_grad ex_shared_optimizer ex_world)))
    = 2%nat.
Proof.
  split; [|split; [|split]].
  - apply list_elem_of_In. simpl. tauto.
  - exists {| params := [1; 4]%nat; options := None |}.
    split; apply list_elem_of_In; simpl; tauto.
  - reflexivity.
  - reflexivity.
Qed.

Lemma zero_grad_zeroes_once_per_occurrence_witness :
  NoDup (zero_grad_order ex_grouped_optimizer)
  ∧ (zero_count 1%nat
       (new_calls ex_world (final (zero_grad ex_grouped_optimizer ex_world)))
     ≤ 1)%nat
  ∧ (detach_count 1%nat
       (new_calls ex_world (final (zero_grad ex_grouped_optimizer ex_world)))
     ≤ 1)%nat.
Proof.
  assert (NoDup (zero_grad_order ex_grouped_optimizer)) as Hnd.
  { apply (bool_decide_unpack _). reflexivity. }
  split; [exact Hnd|].
  destruct (zero_grad_zeroes_once_per_occurrence ex_grouped_optimizer ex_world 1%nat)
    as (_ & Hzero & _ & Hdetach & _).
  exact (conj (Hzero Hnd) (Hdetach Hnd)).
Defined.

(** C5 and the scenario of the specification: of the four parameters of
    [ex_grouped_optimizer] two have a gradient; handle 0 has none and is
    left as it is. *)
Lemma zero_grad_idempotent_witness :
  grad ex_world 0%nat = None
  ∧ heap (final (zero_grad ex_grouped_optimizer ex_world)) !! 0%nat
    = heap ex_world !! 0%nat
  ∧ grad (final (zero_grad ex_grouped_optimizer ex_world)) 0%nat = None.
Proof.
  split; [reflexivity|].
  destruct (zero_grad_idempotent ex_grouped_optimizer ex_world)
    as (_ & _ & _ & H).
  destruct (H 0%nat eq_refl) as (H1 & H2 & _). exact (conj H1 H2).
Defined.

(** ** Vectors and size_t *)

Lemma vec_get_lookup {A} (v : list A) (i : N) : vec_get v i = v !! N.to_nat i.
Proof.
  unfold vec_get, vec_size. destruct (N.ltb_spec i (N.of_nat (length v))); [done|].
  symmetry. apply lookup_ge_None_2. lia.
Qed.

Lemma vec_get_is_Some {A} (v : list A) (i : N) :
  i < vec_size v → is_Some (vec_get v i).
Proof.
  intros Hi. rewrite vec_get_lookup. apply lookup_lt_is_Some_2.
  unfold vec_size in Hi. lia.
Qed.

Lemma vec_get_None {A} (v : list A) (i : N) :
  vec_size v ≤ i → vec_get v i = None.
Proof.
  intros Hi. rewrite vec_get_lookup. apply lookup_ge_None_2.
  unfold vec_size in Hi. lia.
Qed.

Lemma size_t_wrap_small (n : N) : n ≤ SIZE_MAX → size_t_wrap n = n.
Proof.
  unfold size_t_wrap, SIZE_MAX. intros Hn. apply N.mod_small.
  assert (0 < 2 ^ 64) by (apply N.neq_0_lt_0; by apply N.pow_nonzero). lia.
Qed.

(** ** The generic buffer_at *)

Section GenericBufferTheorems.
Context {T : Type} (max_size : N) (T_value_init : T) (T_zero : T).
Implicit Types (b : list T) (index : N).




End GenericBufferTheorems.



(** ** The tensor overload of buffer_at *)


Lemma allocated_alloc w t v : allocated w v → allocated (alloc t w).2 v.
Proof.
  unfold allocated. intros H. eapply Forall_impl; [exact H|].
  intros p Hp; simpl in *. rewrite length_app; simpl. lia.
Qed.

Lemma impl_app_l (h h' : list TensorImpl) cs cs' (p : nat) :
  (p < length h)%nat →
  impl {| heap := h ++ h'; calls := cs |} p = impl {| heap := h; calls := cs' |} p.
Proof. intros Hp. unfold impl; simpl. by apply lookup_total_app_l. Qed.

Section TensorBufferTheorems.
Variable convert : ScalarType → ScalarType → Scalar → Scalar.
Variable max_size : N.
Implicit Types (ps bufs : list nat) (w : World) (i index : N).


(** The loop from [i] up to an index of [parameters_] allocates one
    tensor of zeros per parameter met and appends the handles. *)
Lemma grow_loop_grows k fuel ps i index bufs w :
  (N.to_nat index + 1 = N.to_nat i + k)%nat →
  index < vec_size ps → vec_size ps ≤ SIZE_MAX → vec_size ps ≤ max_size →
  vec_size bufs = i → (k < fuel)%nat →
  allocated w ps →
  grow_loop max_size fuel ps i index (bufs, w)
  = (Ok tt,
     (bufs ++ seq (length (heap w)) k,
      grown_world w (take k (drop (N.to_nat i) ps)))).
Proof.
  revert fuel i bufs w.
  induction k as [|k IH];
    intros fuel i bufs w Hk Hidx Hmax Hroom Hsize Hfuel Hps;
    (destruct fuel as [|fuel]; [lia|]); simpl.
  - destruct (N.leb_spec i index) as [?|_]; [lia|].
    unfold grown_world; simpl. rewrite !app_nil_r. by destruct w.
  - destruct (N.leb_spec i index) as [_|?]; [|lia].
    assert (i < vec_size ps) as Hin by lia.
    destruct (vec_get_is_Some ps i Hin) as [p Hp].
    unfold at_. rewrite Hp. rewrite vec_get_lookup in Hp.
    unfold bind at 1, ret. unfold bind at 1, run_world, zeros_like, alloc; simpl.
    unfold bind, push_back; simpl.
    destruct (N.ltb_spec (vec_size bufs) max_size) as [_|?]; [|lia].
    rewrite size_t_wrap_small by (unfold vec_size in *; lia).
    rewrite IH; [|lia|done|done|done
                 |unfold vec_size in *; rewrite length_app; simpl; lia
                 |lia|by apply (allocated_alloc _ _ _ Hps)].
    unfold grown_world; simpl. rewrite (drop_S _ _ _ Hp); simpl.
    replace (N.to_nat (i + 1)) with (S (N.to_nat i)) by lia.
    rewrite length_app; simpl. rewrite Nat.add_1_r.
    rewrite <- !app_assoc; simpl.
    erewrite (list_fmap_ext (λ q, zeros_like_impl (impl _ q))); [done|].
    intros j q Hq; simpl. f_equal. destruct w as [h cs]; simpl in *.
    apply impl_app_l.
    apply lookup_take_Some in Hq as [Hq _]. rewrite lookup_drop in Hq.
    unfold allocated in Hps. rewrite Forall_lookup in Hps. by eapply Hps.
Qed.

End TensorBufferTheorems.

Lemma vec_get_Some_lt {A} (v : list A) (i : N) x :
  vec_get v i = Some x → i < vec_size v ∧ v !! N.to_nat i = Some x.
Proof.
  intros Hx. destruct (N.le_gt_cases (vec_size v) i) as [Hge|Hlt].
  - by rewrite vec_get_None in Hx.
  - by rewrite vec_get_lookup in Hx.
Qed.

Lemma impl_grown_old w l (p : nat) :
  (p < length (heap w))%nat → impl (grown_world w l) p = impl w p.
Proof. intros Hp. unfold impl, grown_world; simpl. by apply lookup_total_app_l. Qed.

Lemma impl_grown_new w l (j q : nat) :
  l !! j = Some q →
  impl (grown_world w l) (length (heap w) + j) = zeros_like_impl (impl w q).
Proof.
  intros Hj. unfold impl at 1, grown_world; simpl.
  rewrite lookup_total_app_r by lia.
  replace (length (heap w) + j - length (heap w))%nat with j by lia.
  apply list_lookup_total_correct. by rewrite list_lookup_fmap, Hj.
Qed.

Lemma casts_zeros_like (l : list nat) : casts (call_zeros_like <$> l) = [].
Proof. by induction l. Qed.

Lemma new_calls_app w cs h :
  new_calls w {| heap := h; calls := calls w ++ cs |} = cs.
Proof. unfold new_calls; simpl. apply drop_app_length. Qed.

Lemma new_calls_same w : new_calls w w = [].
Proof. unfold new_calls. apply drop_all. Qed.

Section TensorBufferRuns.
Variable convert : ScalarType → ScalarType → Scalar → Scalar.
Variable max_size : N.
Implicit Types (ps bufs : list nat) (w : World) (i index : N).

(** The buffer at [index] is already placed like the parameter: it is
    returned and nothing changes. *)
Lemma buffer_at_Tensor_cached ps index bufs w (p b : nat) :
  vec_get ps index = Some p → vec_get bufs index = Some b →
  ¬ mismatch w b p →
  buffer_at_Tensor convert max_size ps index (bufs, w) = (Ok b, (bufs, w)).
Proof.
  intros Hp Hb Hm. destruct (vec_get_Some_lt _ _ _ Hb) as [Hlt _].
  unfold buffer_at_Tensor. unfold bind at 1, gets. cbn [fst snd].
  destruct (N.leb_spec (vec_size bufs) index) as [?|_]; [lia|].
  unfold bind at 1, ret. unfold bind at 1, at_. rewrite Hp. unfold ret.
  unfold bind at 1, buffers_at. unfold bind at 1, get. cbn [fst snd].
  unfold at_. rewrite Hb. unfold ret.
  unfold bind at 1, gets. cbn [fst snd].
  unfold mismatch in Hm.
  rewrite !bool_decide_eq_false_2 by tauto. simpl.
  unfold bind, ret, buffers_subscript. cbn [fst snd]. by rewrite Hb.
Qed.

(** The buffer at [index] is placed differently: a cast copy is allocated
    and stored in its slot. *)
Lemma buffer_at_Tensor_cast ps index bufs w (p b : nat) :
  vec_get ps index = Some p → vec_get bufs index = Some b →
  mismatch w b p →
  buffer_at_Tensor convert max_size ps index (bufs, w)
  = (Ok (length (heap w)),
     (<[N.to_nat index := length (heap w)]> bufs,
      {| heap := heap w ++ [to_impl convert (device w p) (dtype w p) (impl w b)];
         calls := calls w ++ [call_to b (device w p) (dtype w p)] |})).
Proof.
  intros Hp Hb Hm. destruct (vec_get_Some_lt _ _ _ Hb) as [Hlt Hb'].
  unfold buffer_at_Tensor. unfold bind at 1, gets. cbn [fst snd].
  destruct (N.leb_spec (vec_size bufs) index) as [?|_]; [lia|].
  unfold bind at 1, ret. unfold bind at 1, at_. rewrite Hp. unfold ret.
  unfold bind at 1, buffers_at. unfold bind at 1, get. cbn [fst snd].
  unfold at_. rewrite Hb. unfold ret.
  unfold bind at 1, gets. cbn [fst snd].
  assert (bool_decide (device w b ≠ device w p)
          || bool_decide (dtype w b ≠ dtype w p) = true) as ->.
  { destruct Hm as [Hm|Hm]; rewrite (bool_decide_eq_true_2 _ Hm);
      [done|apply orb_true_r]. }
  unfold bind, run_world, to, alloc, buffers_assign, buffers_subscript, scalar_type.
  cbn [fst snd]. simpl.
  destruct (N.ltb_spec index (vec_size bufs)) as [_|?]; [|lia].
  cbn [fst snd]. rewrite vec_get_lookup, list_lookup_insert_eq; [done|].
  unfold vec_size in Hlt. lia.
Qed.

(** The buffers end before [index]: they grow up to it, each new buffer
    a tensor of zeros made like the parameter of its own position, and
    the last of them is returned. *)
Lemma buffer_at_Tensor_grow ps index bufs w :
  allocated w ps → vec_size bufs ≤ index → index < vec_size ps →
  vec_size ps ≤ SIZE_MAX → vec_size ps ≤ max_size →
  let k := (N.to_nat index + 1 - length bufs)%nat in
  buffer_at_Tensor convert max_size ps index (bufs, w)
  = (Ok (length (heap w) + (k - 1))%nat,
     (bufs ++ seq (length (heap w)) k,
      grown_world w (take k (drop (length bufs) ps)))).
Proof.
  intros Hps Hle Hidx Hmax Hroom k.
  destruct (vec_get_is_Some ps index Hidx) as [p Hp].
  destruct (vec_get_Some_lt _ _ _ Hp) as [_ Hp'].
  assert (length bufs + (k - 1) = N.to_nat index)%nat as Hk
    by (unfold vec_size in *; lia).
  assert ((bufs ++ seq (length (heap w)) k) !! N.to_nat index
          = Some (length (heap w) + (k - 1))%nat) as Hb.
  { rewrite lookup_app_r by lia. apply lookup_seq. unfold vec_size in *; lia. }
  assert (take k (drop (length bufs) ps) !! (k - 1)%nat = Some p) as Hnew.
  { rewrite lookup_take_lt by (subst k; unfold vec_size in *; lia).
    by rewrite lookup_drop, Hk. }
  assert (p < length (heap w))%nat as Hlive.
  { unfold allocated in Hps. rewrite Forall_lookup in Hps. by eapply Hps. }
  unfold buffer_at_Tensor. unfold bind at 1, gets. cbn [fst snd].
  destruct (N.leb_spec (vec_size bufs) index) as [_|?]; [|lia].
  unfold bind at 1. unfold bind at 1, reserve.
  destruct (N.ltb_spec max_size index) as [?|_]; [lia|]. unfold ret.
  rewrite (grow_loop_grows max_size k); [|unfold vec_size in *; lia|done|done|done
    |done|unfold vec_size in *; lia|done].
  unfold vec_size at 1. rewrite Nat2N.id.
  unfold bind at 1, at_. rewrite Hp. unfold ret.
  unfold bind at 1, buffers_at. unfold bind at 1, get. cbn [fst snd].
  unfold at_. rewrite vec_get_lookup, Hb. unfold ret.
  unfold bind at 1, gets. cbn [fst snd].
  unfold device, dtype.
  rewrite (impl_grown_new _ _ _ _ Hnew), (impl_grown_old _ _ _ Hlive). simpl.
  rewrite !bool_decide_eq_false_2 by (intros H; by apply H). simpl.
  unfold bind, ret, buffers_subscript. cbn [fst snd].
  by rewrite vec_get_lookup, Hb.
Qed.
End TensorBufferRuns.

Lemma not_mismatch w (b p : nat) :
  ¬ mismatch w b p ↔ device w b = device w p ∧ dtype w b = dtype w p.
Proof.
  unfold mismatch. split.
  - intros H. split.
    + destruct (decide (device w b = device w p)); [done|]. destruct H; by left.
    + destruct (decide (dtype w b = dtype w p)); [done|]. destruct H; by right.
  - intros [H1 H2] [H|H]; by apply H.
Qed.

Lemma vec_get_None_ge {A} (v : list A) (i : N) :
  vec_get v i = None → vec_size v ≤ i.
Proof.
  intros Hn. destruct (N.le_gt_cases (vec_size v) i) as [|Hlt]; [done|].
  destruct (vec_get_is_Some v i Hlt) as [x Hx]. congruence.
Qed.

Section TensorBufferClaims.
Variable convert : ScalarType → ScalarType → Scalar → Scalar.
Variable max_size : N.
Implicit Types (ps bufs : list nat) (w : World) (index : N).

(** C7.  For an index of [parameters_], the tensor overload returns the
    handle [r] now stored at [buffers[index]], which is on the device and
    of the element type of [parameters_[index]]; the parameter itself is
    not changed.  A cast is made exactly when there was a buffer at
    [index] that differed: then [r] is a freshly allocated copy, stored in
    the slot; a buffer that matched is returned as it is and nothing
    changes.  Called again in the state it left, the function returns the
    same [r] and changes nothing: no call, no allocation; and so it does
    in every later state that still has [r] in the slot, as long as the
    placement of the parameter and of [r] is what it was. *)
Theorem buffer_at_Tensor_matches_parameter ps index bufs w :
  allocated w ps → index < vec_size ps → vec_size ps ≤ SIZE_MAX →
  vec_size ps ≤ max_size →
  ∃ (p r : nat) bufs' w',
    vec_get ps index = Some p
    ∧ buffer_at_Tensor convert max_size ps index (bufs, w) = (Ok r, (bufs', w'))
    ∧ vec_get bufs' index = Some r
    ∧ (device w' r = device w' p ∧ dtype w' r = dtype w' p)
    ∧ (device w' p = device w p ∧ dtype w' p = dtype w p)
    ∧ casts (new_calls w w')
      = match vec_get bufs index with
        | Some b => if decide (mismatch w b p)
                    then [call_to b (device w p) (dtype w p)] else []
        | None => []
        end
    ∧ (∀ b, vec_get bufs index = Some b → ¬ mismatch w b p →
         r = b ∧ bufs' = bufs ∧ w' = w)
    ∧ (∀ b, vec_get bufs index = Some b → mismatch w b p →
         r = length (heap w) ∧ bufs' = <[N.to_nat index := r]> bufs
         ∧ impl w' r = to_impl convert (device w p) (dtype w p) (impl w b))
    ∧ buffer_at_Tensor convert max_size ps index (bufs', w') = (Ok r, (bufs', w'))
    ∧ (∀ bufs2 w2,
         vec_get bufs2 index = Some r →
         device w2 p = device w' p → dtype w2 p = dtype w' p →
         device w2 r = device w' r → dtype w2 r = dtype w' r →
         buffer_at_Tensor convert max_size ps index (bufs2, w2) = (Ok r, (bufs2, w2))).
Proof.
  intros Hps Hidx Hmax Hroom.
  destruct (vec_get_is_Some ps index Hidx) as [p Hp].
  assert (p < length (heap w))%nat as Hlive.
  { destruct (vec_get_Some_lt _ _ _ Hp) as [_ Hp'].
    unfold allocated in Hps. rewrite Forall_lookup in Hps. by eapply Hps. }
  assert (∀ r bufs' w',
            vec_get bufs' index = Some r →
            device w' r = device w' p ∧ dtype w' r = dtype w' p →
            buffer_at_Tensor convert max_size ps index (bufs', w') = (Ok r, (bufs', w'))
            ∧ (∀ bufs2 w2,
                 vec_get bufs2 index = Some r →
                 device w2 p = device w' p → dtype w2 p = dtype w' p →
                 device w2 r = device w' r → dtype w2 r = dtype w' r →
                 buffer_at_Tensor convert max_size ps index (bufs2, w2)
                 = (Ok r, (bufs2, w2))))
    as Hstable.
  { intros r bufs' w' Hr [Hd Ht]. split.
    - by apply (buffer_at_Tensor_cached convert max_size _ _ _ _ p r), not_mismatch.
    - intros bufs2 w2 Hr2 Hd1 Ht1 Hd2 Ht2.
      apply (buffer_at_Tensor_cached convert max_size _ _ _ _ p r); [done..|].
      apply not_mismatch. by rewrite Hd1, Ht1, Hd2, Ht2. }
  exists p. destruct (vec_get bufs index) as [b|] eqn:Hb.
  - destruct (decide (mismatch w b p)) as [Hm|Hm].
    + destruct (vec_get_Some_lt _ _ _ Hb) as [Hlt _].
      pose proof (buffer_at_Tensor_cast convert max_size _ _ _ _ _ _ Hp Hb Hm) as Hrun.
      set (w' := {| heap := heap w ++ [_]; calls := _ |}) in Hrun.
      assert (impl w' (length (heap w))
              = to_impl convert (device w p) (dtype w p) (impl w b)) as Hr.
      { unfold impl at 1, w'; simpl. rewrite lookup_total_app_r by lia.
        by rewrite Nat.sub_diag. }
      assert (impl w' p = impl w p) as Hp_same.
      { unfold impl, w'; simpl. by apply lookup_total_app_l. }
      assert (vec_get (<[N.to_nat index := length (heap w)]> bufs) index
              = Some (length (heap w))) as Hslot.
      { rewrite vec_get_lookup. apply list_lookup_insert_eq.
        unfold vec_size in Hlt. lia. }
      assert (device w' (length (heap w)) = device w' p
              ∧ dtype w' (length (heap w)) = dtype w' p) as Hsame.
      { unfold device, dtype. by rewrite Hr, Hp_same. }
      exists (length (heap w)), (<[N.to_nat index := length (heap w)]> bufs), w'.
      split; [done|]. split; [exact Hrun|]. split; [exact Hslot|].
      split; [exact Hsame|].
      split; [by unfold device, dtype; rewrite Hp_same|].
      split; [subst w'; by rewrite new_calls_app|].
      split; [by intros b' [= <-] Hm'|].
      split; [by intros b' [= <-] _|].
      by apply Hstable.
    + pose proof (buffer_at_Tensor_cached convert max_size _ _ _ _ _ _ Hp Hb Hm) as Hrun.
      exists b, bufs, w.
      split; [done|]. split; [exact Hrun|]. split; [exact Hb|].
      split; [by apply not_mismatch|]. split; [done|].
      split; [by rewrite new_calls_same|].
      split; [by intros b' [= <-] _|].
      split; [by intros b' [= <-] Hm'|].
      by apply Hstable, not_mismatch.
  - apply vec_get_None_ge in Hb as Hle.
    pose proof (buffer_at_Tensor_grow convert max_size _ _ _ _ Hps Hle Hidx Hmax Hroom) as Hrun.
    simpl in Hrun.
    set (k := (N.to_nat index + 1 - length bufs)%nat) in *.
    set (w' := grown_world w _) in *.
    assert (take k (drop (length bufs) ps) !! (k - 1)%nat = Some p) as Hnew.
    { destruct (vec_get_Some_lt _ _ _ Hp) as [_ Hp'].
      rewrite lookup_take_lt by (subst k; unfold vec_size in *; lia).
      rewrite lookup_drop. rewrite <- Hp'. f_equal.
      subst k; unfold vec_size in *; lia. }
    assert (vec_get (bufs ++ seq (length (heap w)) k) index
            = Some (length (heap w) + (k - 1))%nat) as Hslot.
    { rewrite vec_get_lookup, lookup_app_r by (unfold vec_size in *; lia).
      apply lookup_seq. subst k; unfold vec_size in *; lia. }
    assert (impl w' p = impl w p) as Hp_same by (by apply impl_grown_old).
    assert (device w' (length (heap w) + (k - 1)) = device w' p
            ∧ dtype w' (length (heap w) + (k - 1)) = dtype w' p) as Hsame.
    { unfold device, dtype, w'.
      by rewrite (impl_grown_new _ _ _ _ Hnew), (impl_grown_old _ _ _ Hlive). }
    exists (length (heap w) + (k - 1))%nat, (bufs ++ seq (length (heap w)) k), w'.
    split; [done|]. split; [exact Hrun|]. split; [exact Hslot|].
    split; [exact Hsame|].
    split; [by unfold device, dtype; rewrite Hp_same|].
    split; [unfold w', grown_world; by rewrite new_calls_app, casts_zeros_like|].
    split; [done|]. split; [done|].
    by apply Hstable.
Qed.

(** C8 (as the code has it).  With at least six parameters, the call with
    index 5 on an empty buffer sequence grows the sequence to length 6 and
    returns its last entry; entry [i] is a fresh tensor of zeros with the
    shape, device and element type of [parameters_[i]], its own
    parameter, for each of the six positions. *)
Theorem buffer_at_Tensor_index_5_empty ps w :
  allocated w ps → 6 ≤ vec_size ps → vec_size ps ≤ SIZE_MAX →
  vec_size ps ≤ max_size →
  ∃ (r : nat) bufs' w',
    buffer_at_Tensor convert max_size ps 5 ([], w) = (Ok r, (bufs', w'))
    ∧ vec_size bufs' = 6
    ∧ vec_get bufs' 5 = Some r
    ∧ ∀ i, i < 6 →
        ∃ p b, vec_get ps i = Some p ∧ vec_get bufs' i = Some b
          ∧ sizes_ (impl w' b) = sizes_ (impl w p)
          ∧ device w' b = device w p
          ∧ dtype w' b = dtype w p
          ∧ values_ (impl w' b)
            = replicate (N.to_nat (numel (sizes_ (impl w p)))) 0%Z.
Proof.
  intros Hps Hsix Hmax Hroom.
  assert (vec_size (@nil nat) ≤ 5) as Hle by (by vm_compute).
  assert (5 < vec_size ps) as Hidx by lia.
  pose proof (buffer_at_Tensor_grow convert max_size _ _ _ _ Hps Hle Hidx Hmax Hroom) as Hrun.
  cbv zeta in Hrun.
  change (N.to_nat 5 + 1 - length (@nil nat))%nat with 6%nat in Hrun.
  change (6 - 1)%nat with 5%nat in Hrun.
  rewrite app_nil_l in Hrun. change (drop (length (@nil nat)) ps) with ps in Hrun.
  eexists _, _, _. split; [exact Hrun|].
  split; [unfold vec_size; by rewrite length_seq|].
  split; [rewrite vec_get_lookup; apply lookup_seq; simpl; lia|].
  intros i Hi.
  assert (i < vec_size ps) as Hi' by lia.
  destruct (vec_get_is_Some ps i Hi') as [p Hp].
  destruct (vec_get_Some_lt _ _ _ Hp) as [_ Hp'].
  assert (take 6 ps !! N.to_nat i = Some p) as Hnew
    by (rewrite lookup_take_lt by lia; done).
  exists p, (length (heap w) + N.to_nat i)%nat.
  split; [done|]. split.
  - rewrite vec_get_lookup. apply lookup_seq. lia.
  - unfold device, dtype. by rewrite (impl_grown_new _ _ _ _ Hnew).
Qed.
End TensorBufferClaims.



(** C7, where the buffer at index 1 is on another device than parameter
    1: the call succeeds and the buffer returned is placed like the
    parameter. *)
Lemma buffer_at_Tensor_matches_parameter_witness :
  (allocated ex_world ex_parameters ∧ 1 < vec_size ex_parameters
   ∧ vec_size ex_parameters ≤ SIZE_MAX ∧ vec_size ex_parameters ≤ ex_max_size)
  ∧ ∃ (r : nat) bufs' w',
      buffer_at_Tensor ex_convert ex_max_size ex_parameters 1 ([2; 2]%nat, ex_world)
      = (Ok r, (bufs', w'))
      ∧ vec_get bufs' 1 = Some r
      ∧ device w' r = device w' 1%nat ∧ dtype w' r = dtype w' 1%nat
      ∧ buffer_at_Tensor ex_convert ex_max_size ex_parameters 1 (bufs', w')
        = (Ok r, (bufs', w')).
Proof.
  assert (allocated ex_world ex_parameters) as H1
    by (apply (bool_decide_unpack _); reflexivity).
  assert (1 < vec_size ex_parameters) as H2 by reflexivity.
  assert (vec_size ex_parameters ≤ SIZE_MAX) as H3 by (by vm_compute).
  assert (vec_size ex_parameters ≤ ex_max_size) as H4 by (by vm_compute).
  split; [exact (conj H1 (conj H2 (conj H3 H4)))|].
  destruct (buffer_at_Tensor_matches_parameter ex_convert ex_max_size ex_parameters 1
              [2; 2]%nat ex_world H1 H2 H3 H4)
    as (p & r & bufs' & w' & Hp & Hrun & Hslot & Hsame & _ & _ & _ & _ & Hagain & _).
  injection Hp as <-. exists r, bufs', w'.
  exact (conj Hrun (conj Hslot (conj (proj1 Hsame) (conj (proj2 Hsame) Hagain)))).
Defined.

Lemma buffer_at_Tensor_index_5_empty_witness :
  (allocated ex_world ex_parameters ∧ 6 ≤ vec_size ex_parameters
   ∧ vec_size ex_parameters ≤ SIZE_MAX ∧ vec_size ex_parameters ≤ ex_max_size)
  ∧ ∃ (r : nat) bufs' w',
      buffer_at_Tensor ex_convert ex_max_size ex_parameters 5 ([], ex_world)
      = (Ok r, (bufs', w'))
      ∧ vec_size bufs' = 6
      ∧ vec_get bufs' 5 = Some r.
Proof.
  assert (allocated ex_world ex_parameters) as H1
    by (apply (bool_decide_unpack _); reflexivity).
  assert (6 ≤ vec_size ex_parameters) as H2 by (by vm_compute).
  assert (vec_size ex_parameters ≤ SIZE_MAX) as H3 by (by vm_compute).
  assert (vec_size ex_parameters ≤ ex_max_size) as H4 by (by vm_compute).
  split; [exact (conj H1 (conj H2 (conj H3 H4)))|].
  destruct (buffer_at_Tensor_index_5_empty ex_convert ex_max_size ex_parameters
              ex_world H1 H2 H3 H4)
    as (r & bufs' & w' & Hrun & Hsize & Hslot & _).
  exists r, bufs', w'. exact (conj Hrun (conj Hsize Hslot)).
Defined.

(** C8, as stated, fails: after the call on empty buffers the entry at
    position 0 is shaped and placed like parameter 0, on the CPU with two
    elements, and not like parameter 5, on a CUDA device with four. *)
Lemma buffer_at_Tensor_entry_0_unlike_parameter_5 :
  vec_size ex_grown.1 = 6
  ∧ vec_get ex_grown.1 0 = Some 7%nat
  ∧ (sizes_ (impl ex_grown.2 7%nat) = [2]
     ∧ sizes_ (impl ex_world 0%nat) = [2]
     ∧ sizes_ (impl ex_world 5%nat) = [4])
  ∧ (device ex_grown.2 7%nat = CPU
     ∧ device ex_world 0%nat = CPU
     ∧ device ex_world 5%nat = CUDA 1)
  ∧ sizes_ (impl ex_grown.2 7%nat) ≠ sizes_ (impl ex_world 5%nat)
  ∧ device ex_grown.2 7%nat ≠ device ex_world 5%nat.
Proof.
  split; [reflexivity|]. split; [reflexivity|].
  split; [by repeat split|]. split; [by repeat split|].
  split; by vm_compute.
Qed.

(** * Further properties of the optimizer base *)


(** ** add_parameters and the constructor from groups *)

Section LegacyAndGroups.
Context {OptimizerParamState OptimizerOptions : Type}.
Implicit Types (w : World) (g : OptimizerParamGroup OptimizerOptions).
Implicit Types (this : OptimizerBase OptimizerParamState OptimizerOptions).


Lemma for_each_add_param_group_throws w (gs : list (OptimizerParamGroup OptimizerOptions)) this :
  forallb (λ g, forallb (is_leaf w) (params g)) gs = false →
  result (for_each gs (λ g, add_param_group w g) this) = Throw InvalidParameter.
Proof.
  revert this. induction gs as [|g gs IH]; intros this; simpl; [done|].
  destruct (forallb (is_leaf w) (params g)) eqn:Hg; simpl.
  - intros Hgs. erewrite bind_Ok; [|by rewrite add_param_group_run, Hg].
    by apply IH.
  - intros _. unfold bind. by rewrite add_param_group_run, Hg.
Qed.

End LegacyAndGroups.

(** ** What zero_grad changes and what it leaves *)

Lemma length_foldl_alter {A} (f : A → A) (ps : list nat) (h : list A) :
  length (foldl (λ h p, alter f p h) h ps) = length h.
Proof.
  revert h. induction ps as [|p ps IH]; intros h; simpl; [done|].
  by rewrite IH, length_alter.
Qed.

Lemma foldl_alter_cleared_undefined (ps : list nat) (h : list TensorImpl) :
  (∀ p, p ∈ ps → grad_ (h !!! p) = None) →
  foldl (λ h p, alter cleared p h) h ps = h.
Proof.
  induction ps as [|p ps IH]; intros Hps; simpl; [done|].
  rewrite alter_cleared_undefined by (apply Hps; by left).
  apply IH. intros q Hq. apply Hps. by right.
Qed.

Lemma grad_cleared t g :
  grad_ t = Some g →
  grad_ (cleared t)
  = Some {| attached := false;
            grad_values := replicate (length (grad_values g)) 0%Z |}.
Proof.
  destruct t as [l [g'|] d ty sz v]; simpl; [|done]. intros [= ->].
  unfold zeroed, detached; simpl. do 2 f_equal. by apply const_fmap.
Qed.

Section ZeroGradFurther.
Context {OptimizerParamState OptimizerOptions : Type}.
Implicit Types (w : World) (g : OptimizerParamGroup OptimizerOptions).
Implicit Types (this : OptimizerBase OptimizerParamState OptimizerOptions).

Lemma impl_zero_grad this w (q : nat) :
  impl (final (zero_grad this w)) q
  = if decide (q ∈ zero_grad_order this) then cleared (impl w q) else impl w q.
Proof.
  unfold impl. rewrite !list_lookup_total_alt, heap_zero_grad.
  case_decide; [|done]. by destruct (heap w !! q).
Qed.

(** X3.  [zero_grad] changes gradients and nothing else: it allocates and
    frees no tensor, and for every handle the leaf flag, the device, the
    element type, the shape and the elements of the tensor are what they
    were; a gradient that was defined is still defined, with as many
    elements, and one that was undefined is still undefined. *)
Theorem zero_grad_changes_only_gradients this w (q : nat) :
  length (heap (final (zero_grad this w))) = length (heap w)
  ∧ is_leaf (final (zero_grad this w)) q = is_leaf w q
  ∧ device (final (zero_grad this w)) q = device w q
  ∧ dtype (final (zero_grad this w)) q = dtype w q
  ∧ sizes_ (impl (final (zero_grad this w)) q) = sizes_ (impl w q)
  ∧ values_ (impl (final (zero_grad this w)) q) = values_ (impl w q)
  ∧ (λ gr, length (grad_values gr)) <$> grad (final (zero_grad this w)) q
    = (λ gr, length (grad_values gr)) <$> grad w q.
Proof.
  split.
  - rewrite zero_grad_run. unfold final; simpl. apply length_foldl_alter.
  - unfold is_leaf, device, dtype, grad. rewrite impl_zero_grad.
    case_decide; [|done].
    destruct (impl w q) as [l [gr|] d ty sz v]; simpl; [|done].
    split_and!; try done. by rewrite length_fmap.
Qed.

Lemma grad_zero_grad_reached this w (p : nat) (gr : Gradient) :
  p ∈ zero_grad_order this → grad w p = Some gr →
  grad (final (zero_grad this w)) p
  = Some {| attached := false;
            grad_values := replicate (length (grad_values gr)) 0%Z |}.
Proof.
  intros Hp Hg. unfold grad in *. rewrite impl_zero_grad, decide_True by done.
  by apply grad_cleared.
Qed.

(** X4.  After [zero_grad], the gradient of every handle of the flat list
    or of a group that had a gradient is detached from its history and
    holds zeros only, as many as it had elements; the tensor of a handle
    that is in neither is what it was. *)
Theorem zero_grad_zeroes_what_it_reaches this w (p : nat) :
  (∀ gr : Gradient, p ∈ zero_grad_order this → grad w p = Some gr →
     grad (final (zero_grad this w)) p
     = Some {| attached := false;
               grad_values := replicate (length (grad_values gr)) 0%Z |})
  ∧ (p ∉ zero_grad_order this → impl (final (zero_grad this w)) p = impl w p).
Proof.
  split.
  - intros gr. apply grad_zero_grad_reached.
  - intros Hp. by rewrite impl_zero_grad, decide_False.
Qed.

(** X5.  When no handle of the flat list or of a group has a gradient, as
    for an optimizer without parameters, [zero_grad] makes no call into
    the runtime and leaves the world as it is. *)
Theorem zero_grad_without_gradients this w :
  (∀ p, p ∈ zero_grad_order this → grad w p = None) →
  zero_grad this w = (Ok tt, w).
Proof.
  intros Hnone. rewrite zero_grad_run.
  rewrite foldl_alter_cleared_undefined by exact Hnone.
  assert (zero_grad_order this ≫= body_calls w = []) as ->.
  { induction (zero_grad_order this) as [|p ps IH]; [done|].
    rewrite bind_cons, IH by (intros q Hq; apply Hnone; by right).
    unfold body_calls. rewrite Hnone by (by left). done. }
  rewrite app_nil_r. by destruct w.
Qed.

Lemma zero_grad_order_add_param_group w g this :
  forallb (is_leaf w) (params g) = true →
  zero_grad_order (final (add_param_group w g this))
  = zero_grad_order this ++ params g.
Proof.
  intros Hg. rewrite add_param_group_run, Hg. unfold zero_grad_order, final; simpl.
  rewrite fmap_app, concat_app; simpl.
  by rewrite params_registered, app_nil_r, app_assoc.
Qed.

(** X6.  [zero_grad] follows what was added: the handles given to
    [add_parameters], and the handles of a group that [add_param_group]
    accepted, have their gradients zeroed and detached by the next
    [zero_grad]; a group that was refused adds nothing to what
    [zero_grad] does. *)
Theorem zero_grad_reaches_what_was_added w (ps : list Tensor) g this :
  (∀ (p : nat) (gr : Gradient), p ∈ ps → grad w p = Some gr →
     grad (final (zero_grad (final (add_parameters ps this)) w)) p
     = Some {| attached := false;
               grad_values := replicate (length (grad_values gr)) 0%Z |})
  ∧ ((∀ q, q ∈ params g → is_leaf w q = true) →
     ∀ (p : nat) (gr : Gradient), p ∈ params g → grad w p = Some gr →
       grad (final (zero_grad (final (add_param_group w g this)) w)) p
       = Some {| attached := false;
                 grad_values := replicate (length (grad_values gr)) 0%Z |})
  ∧ ((∃ q, q ∈ params g ∧ is_leaf w q = false) →
     zero_grad (final (add_param_group w g this)) w = zero_grad this w).
Proof.
  split; [|split].
  - intros p gr Hp Hg.
    apply grad_zero_grad_reached; [|done].
    unfold zero_grad_order, add_parameters, modify, final; simpl.
    rewrite !elem_of_app. auto.
  - intros Hleaf%forallb_elem_of p gr Hp Hg.
    apply grad_zero_grad_reached; [|done].
    rewrite zero_grad_order_add_param_group by done.
    rewrite elem_of_app. auto.
  - intros Hbad%forallb_false_elem_of.
    by rewrite add_param_group_run, Hbad.
Qed.
End ZeroGradFurther.

(** ** The generic buffer_at: repeated and combined calls *)

Section GenericBufferFurther.
Context {T : Type} (max_size : N) (T_value_init : T) (T_zero : T).
Implicit Types (b : list T) (i j index : N).



(** X8.  At the index [SIZE_MAX] the sum [index + 1] is 0: whatever the
    vector holds, [resize] throws all of it away, and the call has no
    defined result, for the range given to [std::fill] is not valid or,
    when the vector was empty, there is no slot [index]. *)
Theorem buffer_at_generic_at_SIZE_MAX b :
  vec_size b ≤ SIZE_MAX →
  buffer_at max_size T_value_init T_zero SIZE_MAX b = (Undefined, []).
Proof.
  intros Hb. unfold buffer_at, bind, gets; simpl.
  destruct (N.leb_spec (vec_size b) SIZE_MAX) as [_|?]; [|lia].
  change (size_t_wrap (SIZE_MAX + 1)) with 0. unfold resize.
  destruct (N.ltb_spec max_size 0) as [?|_]; [lia|]. simpl.
  unfold fill, vec_size at 2; simpl.
  destruct b as [|x b]; simpl.
  - unfold subscript. by vm_compute.
  - destruct (N.leb_spec (vec_size (x :: b)) 0) as [H0|_]; [|done].
    unfold vec_size in H0; simpl in H0. lia.
Qed.
End GenericBufferFurther.

(** ** The tensor overload of buffer_at: outcomes and what is kept *)

Lemma extends_refl index (s : BufferState) : extends index s s.
Proof. by repeat split. Qed.

Lemma extends_trans index (s1 s2 s3 : BufferState) :
  extends index s1 s2 → extends index s2 s3 → extends index s1 s3.
Proof.
  intros (Hh1 & Hc1 & Hl1 & Hs1) (Hh2 & Hc2 & Hl2 & Hs2). split_and!.
  - by etrans.
  - by etrans.
  - lia.
  - intros j Hj Hlt. rewrite Hs2 by lia. by apply Hs1.
Qed.

Lemma preserves_bind {A B} index (m : M BufferState A) (k : A → M BufferState B) :
  preserves index m → (∀ a, preserves index (k a)) → preserves index (bind m k).
Proof.
  intros Hm Hk s. specialize (Hm s). unfold bind, final in *.
  destruct (m s) as [[a| | |] s1]; simpl in *; try done.
  eapply extends_trans; [exact Hm|]. apply Hk.
Qed.

Lemma preserves_same {A} index (m : M BufferState A) :
  (∀ s, final (m s) = s) → preserves index m.
Proof. intros Hm s. rewrite Hm. apply extends_refl. Qed.

Lemma preserves_at_ {A} index (v : list A) i :
  preserves index (at_ (St := BufferState) v i).
Proof. apply preserves_same. intros s. unfold at_. by destruct (vec_get v i). Qed.

Lemma preserves_run_world {A} index (f : World → A * World) :
  (∀ w, heap w `prefix_of` heap (f w).2 ∧ calls w `prefix_of` calls (f w).2) →
  preserves index (run_world f).
Proof.
  intros Hf [bufs w]. unfold run_world, final; simpl.
  destruct (Hf w) as [Hh Hc]. destruct (f w) as [a w1]; simpl in *.
  by repeat split.
Qed.

Lemma zeros_like_extends p w :
  heap w `prefix_of` heap (zeros_like p w).2
  ∧ calls w `prefix_of` calls (zeros_like p w).2.
Proof. unfold zeros_like, alloc; simpl. split; by apply prefix_app_r. Qed.

Lemma to_extends convert b d t w :
  heap w `prefix_of` heap (to convert b d t w).2
  ∧ calls w `prefix_of` calls (to convert b d t w).2.
Proof. unfold to, alloc; simpl. split; by apply prefix_app_r. Qed.

Lemma preserves_push_back index max_size t :
  preserves index (push_back max_size t).
Proof.
  intros [bufs w]. unfold push_back, final; simpl.
  destruct (vec_size bufs <? max_size); simpl; [|apply extends_refl].
  unfold extends; simpl. split; [done|]. split; [done|]. split.
  - rewrite length_app. lia.
  - intros j _ Hj. by apply lookup_app_l.
Qed.

Lemma preserves_buffers_assign index t : preserves index (buffers_assign index t).
Proof.
  intros [bufs w]. unfold buffers_assign, final; simpl.
  destruct (index <? vec_size bufs); simpl; [|apply extends_refl].
  unfold extends; simpl. split; [done|]. split; [done|]. split.
  - by rewrite length_insert.
  - intros j Hj _. by apply list_lookup_insert_ne.
Qed.

Lemma preserves_buffers_subscript index i : preserves index (buffers_subscript i).
Proof.
  apply preserves_same. intros s. unfold buffers_subscript.
  by destruct (vec_get s.1 i).
Qed.

Lemma preserves_reserve index max_size n : preserves index (reserve max_size n).
Proof.
  apply preserves_same. intros s. unfold reserve. by destruct (max_size <? n).
Qed.

Lemma preserves_grow_loop index max_size fuel ps i index' :
  preserves index (grow_loop max_size fuel ps i index').
Proof.
  revert i. induction fuel as [|fuel IH]; intros i; simpl.
  - by apply preserves_same.
  - destruct (i <=? index'); [|by apply preserves_same].
    apply preserves_bind; [apply preserves_at_|]. intros p.
    apply preserves_bind;
      [apply preserves_run_world; intros w; apply zeros_like_extends|].
    intros z. apply preserves_bind; [apply preserves_push_back|].
    intros _. apply IH.
Qed.

Lemma preserves_buffer_at_Tensor convert max_size ps index :
  preserves index (buffer_at_Tensor convert max_size ps index).
Proof.
  unfold buffer_at_Tensor.
  apply preserves_bind; [by apply preserves_same|]. intros n.
  apply preserves_bind.
  { destruct (n <=? index); [|by apply preserves_same].
    apply preserves_bind; [apply preserves_reserve|]. intros _.
    apply preserves_grow_loop. }
  intros _. apply preserves_bind; [apply preserves_at_|]. intros p.
  apply preserves_bind.
  { unfold buffers_at. apply preserves_bind; [by apply preserves_same|].
    intros s. apply preserves_at_. }
  intros b. apply preserves_bind; [by apply preserves_same|]. intros w.
  apply preserves_bind; [|intros _; apply preserves_buffers_subscript].
  destruct (_ || _); [|by apply preserves_same].
  apply preserves_bind;
    [apply preserves_run_world; intros w'; apply to_extends|].
  intros t. apply preserves_buffers_assign.
Qed.

Lemma grow_loop_terminates max_size fuel ps i index (s : BufferState) :
  vec_size ps ≤ SIZE_MAX → (length ps - N.to_nat i < fuel)%nat →
  result (grow_loop max_size fuel ps i index s) ≠ OutOfFuel.
Proof.
  revert i s. induction fuel as [|fuel IH]; intros i s Hmax Hfuel; [lia|].
  simpl. destruct (i <=? index); [|done].
  unfold at_. destruct (N.le_gt_cases (vec_size ps) i) as [Hout|Hin].
  - by rewrite vec_get_None.
  - destruct (vec_get_is_Some ps i Hin) as [p ->].
    unfold bind, ret, run_world, zeros_like, alloc, push_back; simpl.
    destruct (vec_size s.1 <? max_size); [|done].
    rewrite size_t_wrap_small by lia.
    apply IH; unfold vec_size in *; lia.
Qed.

Lemma grow_loop_not_Undefined max_size fuel ps i index (s : BufferState) :
  result (grow_loop max_size fuel ps i index s) ≠ Undefined.
Proof.
  revert i s. induction fuel as [|fuel IH]; intros i s; [done|].
  simpl. destruct (i <=? index); [|done].
  unfold at_. destruct (vec_get ps i) as [p|]; [|done].
  unfold bind, ret, run_world, zeros_like, alloc, push_back; simpl.
  destruct (vec_size s.1 <? max_size); [|done].
  apply IH.
Qed.

Section TensorBufferFurther.
Variable convert : ScalarType → ScalarType → Scalar → Scalar.
Variable max_size : N.
Implicit Types (ps bufs : list nat) (w : World) (i index : N).

(** What follows the growth in [buffer_at], from any state: a buffer is
    returned, the one in the slot, or [at] throws. *)
Lemma buffer_at_Tensor_tail ps index (s1 s' : BufferState) r :
  bind (at_ ps index) (λ parameter,
    bind (buffers_at index) (λ buffer,
      bind (gets (λ s : BufferState, s.2)) (λ w,
        bind (if bool_decide (device w buffer ≠ device w parameter)
                 || bool_decide (dtype w buffer ≠ dtype w parameter)
              then bind (run_world (to convert buffer (device w parameter)
                                      (scalar_type w parameter)))
                        (λ t, buffers_assign index t)
              else ret tt)
             (λ _, buffers_subscript index)))) s1 = (r, s') →
  (∃ b, r = Ok b ∧ vec_get s'.1 index = Some b ∧ index < vec_size ps)
  ∨ r = Throw out_of_range.
Proof.
  unfold bind at 1, at_.
  destruct (vec_get ps index) as [p|] eqn:Hp; [|intros [= <- <-]; by right].
  destruct (vec_get_Some_lt _ _ _ Hp) as [Hin _]. unfold ret.
  unfold bind at 1, buffers_at. unfold bind at 1, get, at_.
  destruct (vec_get s1.1 index) as [b|] eqn:Hb; [|intros [= <- <-]; by right].
  unfold ret. unfold bind at 1, gets.
  destruct (vec_get_Some_lt _ _ _ Hb) as [Hlt Hb'].
  destruct (_ || _).
  - unfold bind, run_world, to, alloc, buffers_assign, buffers_subscript; simpl.
    destruct (N.ltb_spec index (vec_size s1.1)) as [_|?]; [|lia]. simpl.
    assert (vec_get (<[N.to_nat index:=length (heap s1.2)]> s1.1) index
            = Some (length (heap s1.2))) as Hslot.
    { rewrite vec_get_lookup. apply list_lookup_insert_eq.
      unfold vec_size in Hlt. lia. }
    rewrite Hslot. intros [= <- <-]. left. by eexists.
  - unfold bind, ret, buffers_subscript. rewrite Hb. intros [= <- <-].
    left. by eexists.
Qed.

(** X9.  The tensor overload never runs into undefined behaviour: the
    unchecked [buffers[index]] accesses come after a checked one and are
    in range.  With a parameter vector that fits [size_t] its loop ends.
    When the call returns, [index] is an index of [parameters_] and what
    is returned is the buffer that is in the slot [index] afterwards. *)
Theorem buffer_at_Tensor_no_undefined_behaviour ps index bufs w :
  result (buffer_at_Tensor convert max_size ps index (bufs, w)) ≠ Undefined
  ∧ (vec_size ps ≤ SIZE_MAX →
     result (buffer_at_Tensor convert max_size ps index (bufs, w)) ≠ OutOfFuel)
  ∧ ∀ b, result (buffer_at_Tensor convert max_size ps index (bufs, w)) = Ok b →
      index < vec_size ps
      ∧ vec_get (final (buffer_at_Tensor convert max_size ps index (bufs, w))).1 index
        = Some b.
Proof.
  destruct (buffer_at_Tensor convert max_size ps index (bufs, w)) as [r s'] eqn:Hrun.
  unfold result, final; simpl.
  unfold buffer_at_Tensor in Hrun. unfold bind at 1, gets in Hrun.
  cbn [fst snd] in Hrun.
  set (growth := if vec_size bufs <=? index
                 then bind (reserve max_size index)
                        (λ _, grow_loop max_size (S (length ps)) ps
                                (vec_size bufs) index)
                 else ret tt) in Hrun.
  assert (result (growth (bufs, w)) ≠ Undefined) as Hdef.
  { subst growth. destruct (_ <=? _); [|done]. unfold bind, reserve.
    destruct (max_size <? index); [done|].
    apply (grow_loop_not_Undefined _ _ ps (vec_size bufs) index (bufs, w)). }
  assert (vec_size ps ≤ SIZE_MAX → result (growth (bufs, w)) ≠ OutOfFuel) as Hend.
  { intros Hmax. subst growth. destruct (_ <=? _); [|done]. unfold bind, reserve.
    destruct (max_size <? index); [done|].
    apply (grow_loop_terminates _ _ ps (vec_size bufs) index (bufs, w)); [done|lia]. }
  unfold bind at 1 in Hrun.
  destruct (growth (bufs, w)) as [[[]|e| |] s1]; unfold result in Hdef, Hend;
    simpl in Hdef, Hend.
  - apply buffer_at_Tensor_tail in Hrun.
    destruct Hrun as [(b & -> & Hslot & Hin)| ->].
    + split; [done|]. split; [by intros _|]. intros b' [= <-]. by split.
    + split; [done|]. split; [by intros _|]. by intros b'.
  - injection Hrun as <- <-. split; [done|]. split; [by intros _|]. by intros b'.
  - done.
  - injection Hrun as <- <-. split; [done|]. split; [|by intros b'].
    intros Hmax. by destruct (Hend Hmax).
Qed.

(** X10.  Whatever its arguments and whether it returns or throws, the
    tensor overload only adds: every tensor allocated before the call,
    be it a parameter, a gradient holder or an old buffer, is what it
    was, the calls it makes follow those made before, the buffer vector
    does not get shorter, and no slot of it other than [index] is
    changed. *)
Theorem buffer_at_Tensor_only_adds ps index bufs w :
  extends index (bufs, w)
    (final (buffer_at_Tensor convert max_size ps index (bufs, w)))
  ∧ ∀ q : nat, (q < length (heap w))%nat →
      impl (final (buffer_at_Tensor convert max_size ps index (bufs, w))).2 q
      = impl w q.
Proof.
  pose proof (preserves_buffer_at_Tensor convert max_size ps index (bufs, w)) as Hext.
  split; [exact Hext|]. intros q Hq.
  destruct Hext as ([hs Hh] & _). unfold impl. simpl in Hh. rewrite Hh.
  by apply lookup_total_app_l.
Qed.
End TensorBufferFurther.



Section TensorBufferGrowth.
Variable convert : ScalarType → ScalarType → Scalar → Scalar.
Variable max_size : N.
Implicit Types (ps bufs : list nat) (w : World) (i index : N).


(** X12.  When the buffers end before an index of [parameters_], the call
    extends them up to that index and returns the last: the old buffers
    keep their slots, every new slot [j] holds a tensor that did not
    exist before, made of zeros with the shape, the device and the
    element type of [parameters_[j]], no two new slots share a tensor,
    and nothing is cast. *)
Theorem buffer_at_Tensor_growth ps index bufs w :
  allocated w ps → vec_size bufs ≤ index → index < vec_size ps →
  vec_size ps ≤ SIZE_MAX → vec_size ps ≤ max_size →
  ∃ (r : nat) bufs' w',
    buffer_at_Tensor convert max_size ps index (bufs, w) = (Ok r, (bufs', w'))
    ∧ vec_size bufs' = index + 1
    ∧ vec_get bufs' index = Some r
    ∧ take (length bufs) bufs' = bufs
    ∧ NoDup (drop (length bufs) bufs')
    ∧ casts (new_calls w w') = []
    ∧ ∀ j, vec_size bufs ≤ j → j ≤ index →
        ∃ (p b : nat), vec_get ps j = Some p ∧ vec_get bufs' j = Some b
          ∧ (length (heap w) ≤ b)%nat
          ∧ impl w' b = zeros_like_impl (impl w p).
Proof.
  intros Hps Hle Hidx Hmax Hroom.
  pose proof (buffer_at_Tensor_grow convert max_size _ _ _ _ Hps Hle Hidx Hmax Hroom)
    as Hrun.
  cbv zeta in Hrun. set (k := (N.to_nat index + 1 - length bufs)%nat) in *.
  eexists _, _, _. split; [exact Hrun|].
  split; [unfold vec_size in *; rewrite length_app, length_seq; lia|].
  split.
  { rewrite vec_get_lookup, lookup_app_r by (unfold vec_size in *; lia).
    apply lookup_seq. unfold vec_size in *. lia. }
  split; [by rewrite take_app_length|].
  split; [rewrite drop_app_length; apply NoDup_seq|].
  split; [unfold grown_world; by rewrite new_calls_app, casts_zeros_like|].
  intros j Hj1 Hj2.
  assert (j < vec_size ps) as Hj by lia.
  destruct (vec_get_is_Some ps j Hj) as [p Hp].
  destruct (vec_get_Some_lt _ _ _ Hp) as [_ Hp'].
  assert (take k (drop (length bufs) ps) !! (N.to_nat j - length bufs)%nat
          = Some p) as Hnew.
  { rewrite lookup_take_lt by (unfold vec_size in *; lia).
    rewrite lookup_drop. rewrite <- Hp'. f_equal. unfold vec_size in *. lia. }
  exists p, (length (heap w) + (N.to_nat j - length bufs))%nat.
  split; [done|]. split.
  - rewrite vec_get_lookup, lookup_app_r by (unfold vec_size in *; lia).
    apply lookup_seq. unfold vec_size in *. lia.
  - split; [lia|]. by apply impl_grown_new.
Qed.
End TensorBufferGrowth.

(** ** zero_grad and the cached buffers *)

Section GroupsConstructor.
Context {OptimizerParamState OptimizerOptions : Type}.
Implicit Types (w : World) (g : OptimizerParamGroup OptimizerOptions).
Implicit Types (this : OptimizerBase OptimizerParamState OptimizerOptions).

Lemma elem_of_concat_params (gs : list (OptimizerParamGroup OptimizerOptions))
    (p : nat) :
  p ∈ concat (params <$> gs) ↔ ∃ g, g ∈ gs ∧ p ∈ params g.
Proof.
  induction gs as [|g gs IH]; simpl.
  - split; [by intros ?%elem_of_nil|]. by intros (g & ?%elem_of_nil & _).
  - rewrite elem_of_app, IH. split.
    + intros [Hp|(g' & Hg' & Hp)].
      * exists g. split; [by left|done].
      * exists g'. split; [by right|done].
    + intros (g' & [->|Hg']%elem_of_cons & Hp); [by left|].
      right. by exists g'.
Qed.

(** X2.  The constructor from groups and defaults registers the groups
    in the order given, each one that has no options with a copy of the
    defaults, unless one of them holds a handle that is not a leaf: then
    it throws [InvalidParameter] and there is no optimizer.  The optimizer
    it makes has an empty flat list, so its [size()] is 0 whatever the
    groups hold; its [zero_grad] all the same detaches and zeroes the
    gradients of the handles of the groups, and touches no other
    tensor. *)
Theorem OptimizerBase_param_groups_registers_or_throws w
    (gs : list (OptimizerParamGroup OptimizerOptions)) (d : OptimizerOptions) :
  OptimizerBase_param_groups (OptimizerParamState := OptimizerParamState) w gs d
  = (if forallb (λ g, forallb (is_leaf w) (params g)) gs
     then Ok {| parameters_ := []; defaults_ := d;
                param_groups_ := registered d <$> gs; state_ := ∅ |}
     else Throw InvalidParameter)
  ∧ ∀ this, OptimizerBase_param_groups w gs d = Ok this →
      size this = 0 ∧ parameters this = []
      ∧ length (param_groups_ this) = length gs
      ∧ ∀ w' (p : nat),
          (∀ gr : Gradient, (∃ g, g ∈ gs ∧ p ∈ params g) → grad w' p = Some gr →
             grad (final (zero_grad this w')) p
             = Some {| attached := false;
                       grad_values := replicate (length (grad_values gr)) 0%Z |})
          ∧ ((∀ g, g ∈ gs → p ∉ params g) →
             impl (final (zero_grad this w')) p = impl w' p).
Proof.
  assert (OptimizerBase_param_groups (OptimizerParamState := OptimizerParamState) w gs d
          = (if forallb (λ g, forallb (is_leaf w) (params g)) gs
             then Ok {| parameters_ := []; defaults_ := d;
                        param_groups_ := registered d <$> gs; state_ := ∅ |}
             else Throw InvalidParameter)) as Hrun.
  { destruct (forallb _ gs) eqn:Hgs.
    - unfold OptimizerBase_param_groups, construct.
      by rewrite (for_each_add_param_group _ _ _ Hgs).
    - unfold OptimizerBase_param_groups, construct.
      pose proof (for_each_add_param_group_throws w gs
        {| parameters_ := []; defaults_ := d; param_groups_ := [];
           state_ := (∅ : gmap nat OptimizerParamState) |} Hgs) as Hthrow.
      unfold result in Hthrow.
      destruct (for_each gs _ _) as [[] ?]; simpl in Hthrow; congruence. }
  split; [exact Hrun|]. intros this. rewrite Hrun.
  destruct (forallb _ gs); [|done]. intros [= <-].
  split; [done|]. split; [done|]. split; [simpl; by rewrite length_fmap|].
  intros w' p.
  assert (zero_grad_order (OptimizerParamState := OptimizerParamState)
            {| parameters_ := []; defaults_ := d;
               param_groups_ := registered d <$> gs; state_ := ∅ |}
          = concat (params <$> gs)) as Horder.
  { unfold zero_grad_order; simpl. f_equal. rewrite <- list_fmap_compose.
    apply list_fmap_ext. intros i g _. apply params_registered. }
  split.
  - intros gr Hp Hgr. apply grad_zero_grad_reached; [|done].
    rewrite Horder. by apply elem_of_concat_params.
  - intros Hp. rewrite impl_zero_grad, decide_False; [done|].
    rewrite Horder, elem_of_concat_params. intros (g & Hg & Hin).
    by apply (Hp g Hg).
Qed.
End GroupsConstructor.

Section BufferAcrossZeroGrad.
Context {OptimizerParamState OptimizerOptions : Type}.
Variable convert : ScalarType → ScalarType → Scalar → Scalar.
Variable max_size : N.
Implicit Types (this : OptimizerBase OptimizerParamState OptimizerOptions).

Lemma mismatch_zero_grad this w (b p : nat) :
  mismatch (final (zero_grad this w)) b p ↔ mismatch w b p.
Proof.
  unfold mismatch, device, dtype. rewrite !impl_zero_grad.
  assert (∀ t, device_ (cleared t) = device_ t ∧ dtype_ (cleared t) = dtype_ t)
    as Hc by (by intros []).
  repeat case_decide; rewrite ?(proj1 (Hc _)), ?(proj2 (Hc _)); done.
Qed.

(** X13.  [zero_grad] does not unsettle the buffers: a buffer that is
    placed like its parameter is still returned as it is, without a cast
    and without any change, by a [buffer_at] that comes after a
    [zero_grad]. *)
Theorem buffer_at_Tensor_cached_across_zero_grad this ps index bufs w (p b : nat) :
  vec_get ps index = Some p → vec_get bufs index = Some b → ¬ mismatch w b p →
  buffer_at_Tensor convert max_size ps index (bufs, final (zero_grad this w))
  = (Ok b, (bufs, final (zero_grad this w))).
Proof.
  intros Hp Hb Hm.
  apply (buffer_at_Tensor_cached convert max_size _ _ _ _ p b); [done..|].
  by rewrite mismatch_zero_grad.
Qed.
End BufferAcrossZeroGrad.

(** ** The further properties at concrete inputs *)

Lemma OptimizerBase_param_groups_registers_or_throws_witness :
  OptimizerBase_param_groups (OptimizerParamState := Z) ex_world
    [ex_leaf_group; ex_gradient_group] 10%Z
  = Ok {| parameters_ := []; defaults_ := 10%Z;
          param_groups_ := [ {| params := [2; 3]%nat; options := Some 10%Z |};
                             ex_gradient_group ];
          state_ := ∅ |}
  ∧ size (OptimizerParamState := Z)
      {| parameters_ := []; defaults_ := 10%Z;
         param_groups_ := [ {| params := [2; 3]%nat; options := Some 10%Z |};
                            ex_gradient_group ];
         state_ := ∅ |} = 0
  ∧ grad (final (zero_grad (OptimizerParamState := Z)
                   {| parameters_ := []; defaults_ := 10%Z;
                      param_groups_ :=
                        [ {| params := [2; 3]%nat; options := Some 10%Z |};
                          ex_gradient_group ];
                      state_ := ∅ |} ex_world)) 4%nat
    = Some {| attached := false; grad_values := [0; 0]%Z |}.
Proof.
  assert (OptimizerBase_param_groups (OptimizerParamState := Z) ex_world
            [ex_leaf_group; ex_gradient_group] 10%Z
          = Ok {| parameters_ := []; defaults_ := 10%Z;
                  param_groups_ := [ {| params := [2; 3]%nat; options := Some 10%Z |};
                                     ex_gradient_group ];
                  state_ := ∅ |}) as Hrun by reflexivity.
  split; [exact Hrun|].
  destruct (proj2 (OptimizerBase_param_groups_registers_or_throws
                     (OptimizerParamState := Z) ex_world
                     [ex_leaf_group; ex_gradient_group] 10%Z) _ Hrun)
    as (Hsize & _ & _ & Hzero).
  split; [exact Hsize|].
  apply (proj1 (Hzero ex_world 4%nat)
           {| attached := true; grad_values := [5; 9]%Z |}); [|reflexivity].
  exists ex_gradient_group. split; apply list_elem_of_In; simpl; tauto.
Defined.

Lemma zero_grad_zeroes_what_it_reaches_witness :
  (1%nat ∈ zero_grad_order ex_grouped_optimizer
   ∧ grad ex_world 1%nat = ex_gradient [3; -1; 4; 1]%Z
   ∧ 5%nat ∉ zero_grad_order ex_grouped_optimizer)
  ∧ grad (final (zero_grad ex_grouped_optimizer ex_world)) 1%nat
    = Some {| attached := false; grad_values := [0; 0; 0; 0]%Z |}
  ∧ impl (final (zero_grad ex_grouped_optimizer ex_world)) 5%nat = impl ex_world 5%nat.
Proof.
  assert (1%nat ∈ zero_grad_order ex_grouped_optimizer) as H1
    by (apply (bool_decide_unpack _); reflexivity).
  assert (grad ex_world 1%nat = ex_gradient [3; -1; 4; 1]%Z) as H2 by reflexivity.
  assert (5%nat ∉ zero_grad_order ex_grouped_optimizer) as H3
    by (apply (bool_decide_unpack _); reflexivity).
  split; [exact (conj H1 (conj H2 H3))|]. split.
  - exact (proj1 (zero_grad_zeroes_what_it_reaches ex_grouped_optimizer ex_world 1%nat)
             _ H1 H2).
  - exact (proj2 (zero_grad_zeroes_what_it_reaches ex_grouped_optimizer ex_world 5%nat)
             H3).
Defined.

Lemma zero_grad_without_gradients_witness :
  (∀ p, p ∈ zero_grad_order ex_gradless_optimizer → grad ex_world p = None)
  ∧ zero_grad ex_gradless_optimizer ex_world = (Ok tt, ex_world).
Proof.
  assert (∀ p, p ∈ zero_grad_order ex_gradless_optimizer → grad ex_world p = None)
    as H1.
  { intros p Hp%list_elem_of_In. simpl in Hp.
    destruct Hp as [<-|[<-|[<-|[<-|[]]]]]; reflexivity. }
  split; [exact H1|].
  exact (zero_grad_without_gradients ex_gradless_optimizer ex_world H1).
Defined.

Lemma zero_grad_reaches_what_was_added_witness :
  grad (final (zero_grad (final (add_parameters [4]%nat ex_optimizer)) ex_world)) 4%nat
  = Some {| attached := false; grad_values := [0; 0]%Z |}
  ∧ grad (final (zero_grad (final (add_param_group ex_world ex_gradient_group
                                     ex_optimizer)) ex_world)) 4%nat
    = Some {| attached := false; grad_values := [0; 0]%Z |}
  ∧ zero_grad (final (add_param_group ex_world ex_non_leaf_group ex_optimizer))
      ex_world
    = zero_grad ex_optimizer ex_world.
Proof.
  pose proof (zero_grad_reaches_what_was_added ex_world [4]%nat ex_gradient_group
                ex_optimizer) as (Hadd & Hgroup & _).
  pose proof (zero_grad_reaches_what_was_added ex_world [4]%nat ex_non_leaf_group
                ex_optimizer) as (_ & _ & Hrefused).
  split; [|split].
  - apply (Hadd 4%nat {| attached := true; grad_values := [5; 9]%Z |});
      [by apply list_elem_of_singleton|reflexivity].
  - assert (∀ q : nat, q ∈ params ex_gradient_group → is_leaf ex_world q = true)
      as Hleaves.
    { intros q Hq%list_elem_of_In. simpl in Hq.
      destruct Hq as [<-|[<-|[]]]; reflexivity. }
    apply (Hgroup Hleaves 4%nat {| attached := true; grad_values := [5; 9]%Z |});
      [apply list_elem_of_In; simpl; tauto|reflexivity].
  - apply Hrefused. exists 6%nat. split; [|reflexivity].
    apply list_elem_of_In. simpl. tauto.
Defined.


Lemma buffer_at_generic_at_SIZE_MAX_witness :
  vec_size [4; 5; 6]%Z ≤ SIZE_MAX
  ∧ buffer_at ex_max_size 7%Z 0%Z SIZE_MAX [4; 5; 6]%Z = (Undefined, []).
Proof.
  assert (vec_size [4; 5; 6]%Z ≤ SIZE_MAX) as H1 by (by vm_compute).
  split; [exact H1|].
  exact (buffer_at_generic_at_SIZE_MAX ex_max_size 7%Z 0%Z [4; 5; 6]%Z H1).
Defined.

Lemma buffer_at_Tensor_no_undefined_behaviour_witness :
  (vec_size ex_parameters ≤ SIZE_MAX
   ∧ result (buffer_at_Tensor ex_convert ex_max_size ex_parameters 1
               ([2; 2]%nat, ex_world)) = Ok 7%nat)
  ∧ result (buffer_at_Tensor ex_convert ex_max_size ex_parameters 1
              ([2; 2]%nat, ex_world)) ≠ OutOfFuel
  ∧ 1 < vec_size ex_parameters
  ∧ vec_get (final (buffer_at_Tensor ex_convert ex_max_size ex_parameters 1
                      ([2; 2]%nat, ex_world))).1 1 = Some 7%nat.
Proof.
  assert (vec_size ex_parameters ≤ SIZE_MAX) as H1 by (by vm_compute).
  assert (result (buffer_at_Tensor ex_convert ex_max_size ex_parameters 1
                    ([2; 2]%nat, ex_world)) = Ok 7%nat) as H2 by reflexivity.
  split; [exact (conj H1 H2)|].
  destruct (buffer_at_Tensor_no_undefined_behaviour ex_convert ex_max_size
              ex_parameters 1 [2; 2]%nat ex_world) as (_ & Hend & Hok).
  exact (conj (Hend H1) (Hok 7%nat H2)).
Defined.

Lemma buffer_at_Tensor_only_adds_witness :
  (1 < length (heap ex_world))%nat
  ∧ impl (final (buffer_at_Tensor ex_convert ex_max_size ex_parameters 1
                   ([2; 2]%nat, ex_world))).2 1%nat
    = impl ex_world 1%nat.
Proof.
  assert (1 < length (heap ex_world))%nat as H1 by (simpl; lia).
  split; [exact H1|].
  exact (proj2 (buffer_at_Tensor_only_adds ex_convert ex_max_size ex_parameters 1
                  [2; 2]%nat ex_world) 1%nat H1).
Defined.


Lemma buffer_at_Tensor_growth_witness :
  (allocated ex_world ex_parameters ∧ vec_size [3]%nat ≤ 3
   ∧ 3 < vec_size ex_parameters ∧ vec_size ex_parameters ≤ SIZE_MAX
   ∧ vec_size ex_parameters ≤ ex_max_size)
  ∧ ∃ (r : nat) bufs' w',
      buffer_at_Tensor ex_convert ex_max_size ex_parameters 3 ([3]%nat, ex_world)
      = (Ok r, (bufs', w'))
      ∧ vec_size bufs' = 3 + 1
      ∧ take 1 bufs' = [3]%nat.
Proof.
  assert (allocated ex_world ex_parameters) as H1
    by (apply (bool_decide_unpack _); reflexivity).
  assert (vec_size [3]%nat ≤ 3) as H2 by (by vm_compute).
  assert (3 < vec_size ex_parameters) as H3 by reflexivity.
  assert (vec_size ex_parameters ≤ SIZE_MAX) as H4 by (by vm_compute).
  assert (vec_size ex_parameters ≤ ex_max_size) as H5 by (by vm_compute).
  split; [exact (conj H1 (conj H2 (conj H3 (conj H4 H5))))|].
  destruct (buffer_at_Tensor_growth ex_convert ex_max_size ex_parameters 3 [3]%nat
              ex_world H1 H2 H3 H4 H5)
    as (r & bufs' & w' & Hrun & Hsize & _ & Hold & _).
  exists r, bufs', w'. exact (conj Hrun (conj Hsize Hold)).
Defined.

Lemma buffer_at_Tensor_cached_across_zero_grad_witness :
  (vec_get ex_parameters 0 = Some 0%nat ∧ vec_get [3]%nat 0 = Some 3%nat
   ∧ ¬ mismatch ex_world 3%nat 0%nat)
  ∧ buffer_at_Tensor ex_convert ex_max_size ex_parameters 0
      ([3]%nat, final (zero_grad ex_grouped_optimizer ex_world))
    = (Ok 3%nat, ([3]%nat, final (zero_grad ex_grouped_optimizer ex_world))).
Proof.
  assert (vec_get ex_parameters 0 = Some 0%nat) as H1 by reflexivity.
  assert (vec_get [3]%nat 0 = Some 3%nat) as H2 by reflexivity.
  assert (¬ mismatch ex_world 3%nat 0%nat) as H3
    by (apply (bool_decide_unpack _); reflexivity).
  split; [exact (conj H1 (conj H2 H3))|].
  exact (buffer_at_Tensor_cached_across_zero_grad ex_convert ex_max_size
           ex_grouped_optimizer ex_parameters 0 [3]%nat ex_world 0%nat 3%nat
           H1 H2 H3).
Defined.
